(** * Day 1 of Advent of Code 2024 (src/aoc2024-1/src/main.rs)

    Shallow embedding of the three functions of [main.rs]:
    [read_data_from_file], [calculate_total_distance] and
    [calculate_similarity_score].

    - [i32] values are [Z] in [i32_min .. i32_max].  Rust's arithmetic on
      [i32] depends on the build profile: with overflow checks (the default
      of debug builds) an overflowing [+], [-], [*] or [abs] panics; without
      them (release builds) it wraps around modulo 2^32.  Every arithmetic
      operation therefore takes the flag [oc] ("overflow-checks") and
      returns [option Z], [None] standing for the panic.
    - A panic of any kind (overflow, out-of-bounds indexing) is [None].
    - [io::Result<T>] is [io_result T]; an opened file is the stream of line
      results that [BufReader::lines] yields.  A [file] is
      [io_result (list (io_result string))]: the [File::open] result, and on
      success the results of the successive [next] calls of [lines()] up
      to the end of the stream.  A stream that may never end (a read error
      on every call) is a [stream_file], over the coinductive
      [lines_iter]; on it the loop is the relation [read_loop].
    - A line is the byte string of its UTF-8 text; [split_whitespace]
      recognises the UTF-8 encodings of all the characters of Rust's
      [char::is_whitespace]. *)

From Stdlib Require Import ZArith Lia.
From Stdlib Require Import Ascii String DecimalString DecimalPos.
From stdpp Require Import base list gmap sorting strings.

Open Scope Z_scope.

(* ------------------------------------------------------------------ *)
(** ** Rust [i32] arithmetic *)

Definition i32_min : Z := -2147483648.
Definition i32_max : Z := 2147483647.

Definition in_i32 (z : Z) : bool := (i32_min <=? z) && (z <=? i32_max).

(** Two's complement wrap-around to 32 bits. *)
Definition wrap32 (z : Z) : Z := (z + 2147483648) mod 4294967296 - 2147483648.

(** The outcome of an [i32] operation whose exact result is [z]. *)
Definition i32_result (oc : bool) (z : Z) : option Z :=
  if in_i32 z then Some z else if oc then None else Some (wrap32 z).

Definition i32_add (oc : bool) (a b : Z) : option Z := i32_result oc (a + b).
Definition i32_sub (oc : bool) (a b : Z) : option Z := i32_result oc (a - b).
Definition i32_mul (oc : bool) (a b : Z) : option Z := i32_result oc (a * b).
(** [i32::abs]: [abs(i32::MIN)] overflows. *)
Definition i32_abs (oc : bool) (a : Z) : option Z := i32_result oc (Z.abs a).

(* ------------------------------------------------------------------ *)
(** ** [io::Result] and files *)

Inductive io_error : Type :=
  | NotFound
  | PermissionDenied
  | InvalidData
  | Other.

Inductive io_result (T : Type) : Type :=
  | Ok (t : T)
  | Err (e : io_error).
Arguments Ok {T} t.
Arguments Err {T} e.

(** [File::open] and then the line stream of [BufReader::lines], when
    that stream ends. *)
Definition file := io_result (list (io_result string)).

(* ------------------------------------------------------------------ *)
(** ** [str::split_whitespace] and [str::parse::<i32>] *)

(** [char::is_whitespace] is Unicode's White_Space property.  A [&str]
    is UTF-8, and [lines()] only yields valid UTF-8 (an invalid line is an
    [Err] of kind [InvalidData]), so a record is a byte string in which the
    whitespace characters are these encodings:
    - one byte: '\t' '\n' '\x0B' '\x0C' '\r' ' ';
    - two bytes: U+0085 (C2 85), U+00A0 (C2 A0);
    - three bytes: U+1680 (E1 9A 80), U+2000 to U+200A (E2 80 80 to
      E2 80 8A), U+2028 (E2 80 A8), U+2029 (E2 80 A9), U+202F (E2 80 AF),
      U+205F (E2 81 9F), U+3000 (E3 80 80).
    Every byte after the first of a multi-byte encoding is a continuation
    byte (80 to BF), which never starts a character: in valid UTF-8 these
    byte sequences occur exactly where the characters do. *)
Definition is_whitespace_ascii (c0 : ascii) : bool :=
  let n0 := nat_of_ascii c0 in
  ((9 <=? n0)%nat && (n0 <=? 13)%nat) || (n0 =? 32)%nat.

Definition is_whitespace2 (c0 c1 : ascii) : bool :=
  let n0 := nat_of_ascii c0 in
  let n1 := nat_of_ascii c1 in
  (n0 =? 194)%nat && ((n1 =? 133)%nat || (n1 =? 160)%nat).

Definition is_whitespace3 (c0 c1 c2 : ascii) : bool :=
  let n0 := nat_of_ascii c0 in
  let n1 := nat_of_ascii c1 in
  let n2 := nat_of_ascii c2 in
  ((n0 =? 225)%nat && (n1 =? 154)%nat && (n2 =? 128)%nat) ||
  ((n0 =? 226)%nat && (n1 =? 128)%nat &&
     (((128 <=? n2)%nat && (n2 <=? 138)%nat) ||
      (n2 =? 168)%nat || (n2 =? 169)%nat || (n2 =? 175)%nat)) ||
  ((n0 =? 226)%nat && (n1 =? 129)%nat && (n2 =? 159)%nat) ||
  ((n0 =? 227)%nat && (n1 =? 128)%nat && (n2 =? 128)%nat).

(** When [s] starts with a whitespace character, the bytes after it. *)
Definition whitespace_rest (s : list ascii) : option (list ascii) :=
  match s with
  | [] => None
  | c0 :: s1 =>
      if is_whitespace_ascii c0 then Some s1 else
      match s1 with
      | [] => None
      | c1 :: s2 =>
          if is_whitespace2 c0 c1 then Some s2 else
          match s2 with
          | [] => None
          | c2 :: s3 => if is_whitespace3 c0 c1 c2 then Some s3 else None
          end
      end
  end.

(** Emit the current token [cur] (kept reversed) unless it is empty. *)
Definition flush (cur : list ascii) (tokens : list (list ascii)) : list (list ascii) :=
  match cur with [] => tokens | _ => rev cur :: tokens end.

(** [s.split(char::is_whitespace).filter(|t| !t.is_empty())], byte by
    byte: a whitespace character ends the current token, any other byte
    is added to it. *)
Fixpoint split_ws_aux (s : list ascii) (cur : list ascii) : list (list ascii) :=
  match s with
  | [] => flush cur []
  | c0 :: s1 =>
      if is_whitespace_ascii c0 then flush cur (split_ws_aux s1 []) else
      match s1 with
      | [] => split_ws_aux s1 (c0 :: cur)
      | c1 :: s2 =>
          if is_whitespace2 c0 c1 then flush cur (split_ws_aux s2 []) else
          match s2 with
          | [] => split_ws_aux s1 (c0 :: cur)
          | c2 :: s3 =>
              if is_whitespace3 c0 c1 c2 then flush cur (split_ws_aux s3 [])
              else split_ws_aux s1 (c0 :: cur)
          end
      end
  end.

Definition split_whitespace (s : string) : list (list ascii) :=
  split_ws_aux (list_ascii_of_string s) [].

(** A UTF-8 continuation byte (80 to BF). *)
Definition is_continuation (c : ascii) : bool :=
  let n := nat_of_ascii c in (128 <=? n)%nat && (n <? 192)%nat.

(** [t] does not start in the middle of a character. *)
Definition starts_char (t : list ascii) : bool :=
  match t with [] => true | c :: _ => negb (is_continuation c) end.

(** An ASCII byte other than whitespace, e.g. a digit or a sign. *)
Definition is_word_byte (c : ascii) : bool :=
  (nat_of_ascii c <? 128)%nat && negb (is_whitespace_ascii c).

Definition digit_value (c : ascii) : option Z :=
  let n := nat_of_ascii c in
  if ((48 <=? n)%nat && (n <=? 57)%nat) then Some (Z.of_nat n - 48) else None.

(** Decimal digits, accumulated left to right ([acc * 10 + d]). *)
Fixpoint parse_digits (s : list ascii) (acc : Z) : option Z :=
  match s with
  | [] => Some acc
  | c :: s' =>
      match digit_value c with
      | Some d => parse_digits s' (acc * 10 + d)
      | None => None
      end
  end.

Definition range_check (z : Z) : option Z := if in_i32 z then Some z else None.

(** [<i32 as FromStr>::from_str] (radix 10): empty input and a lone sign
    are errors; an optional '+' or '-' then digits only.  Rust checks for
    overflow at each step; since the partial values move monotonically
    away from 0, that is the same as checking the final value. *)
Definition parse_i32 (tok : list ascii) : option Z :=
  match tok with
  | [] => None
  | ["+"%char] | ["-"%char] => None
  | "+"%char :: rest => parse_digits rest 0 ≫= range_check
  | "-"%char :: rest => parse_digits rest 0 ≫= fun v => range_check (- v)
  | _ => parse_digits tok 0 ≫= range_check
  end.

(** [.filter_map(|x| x.parse::<i32>().ok()).collect()] *)
Definition parse_line (record : string) : list Z :=
  omap parse_i32 (split_whitespace record).

(* ------------------------------------------------------------------ *)
(** ** [read_data_from_file] *)

(** [numbers[i]] on a [Vec]: out of bounds panics. *)
Definition vec_index (v : list Z) (i : nat) : option Z := v !! i.

(** One iteration of the [for line in reader.lines()] loop. *)
Definition read_step (acc : list Z * list Z) (line : io_result string)
    : option (list Z * list Z) :=
  let '(left_list, right_list) := acc in
  match line with
  | Ok record =>
      let numbers := parse_line record in
      if (length numbers =? 2)%nat then
        a ← vec_index numbers 0;
        b ← vec_index numbers 1;
        Some (left_list ++ [a], right_list ++ [b])
      else Some (left_list, right_list)
  | Err _ => Some (left_list, right_list)
  end.

Fixpoint read_lines (acc : list Z * list Z) (lines : list (io_result string))
    : option (list Z * list Z) :=
  match lines with
  | [] => Some acc
  | line :: rest => acc' ← read_step acc line; read_lines acc' rest
  end.

Definition read_data_from_file (f : file) : option (io_result (list Z * list Z)) :=
  match f with
  | Err e => Some (Err e)
  | Ok lines => r ← read_lines ([], []) lines; Some (Ok r)
  end.


(** A [file] is a run in which the [lines()] iterator ends after finitely
    many items.  In general [next] may go on forever: when "1.txt" is a
    directory, [File::open] succeeds and every read fails, so the iterator
    yields [Err] forever.  [lines_iter] is the general iterator. *)
CoInductive lines_iter : Type :=
  | lines_end
  | lines_next (line : io_result string) (rest : lines_iter).

Fixpoint lines_of_list (lines : list (io_result string)) : lines_iter :=
  match lines with
  | [] => lines_end
  | line :: rest => lines_next line (lines_of_list rest)
  end.

(** The iterator of a read that fails on every call. *)
CoFixpoint read_error_forever (e : io_error) : lines_iter :=
  lines_next (Err e) (read_error_forever e).

(** The iterator ends after finitely many items. *)
Inductive lines_finite : lines_iter -> Prop :=
  | lines_finite_end : lines_finite lines_end
  | lines_finite_next line rest : lines_finite rest -> lines_finite (lines_next line rest).

(** The [for line in reader.lines()] loop on any iterator.  [read_loop]
    relates the runs that end to their result ([None] for a panic of the
    body); [read_loop_diverges] holds of the runs that never end. *)
Inductive read_loop : list Z * list Z -> lines_iter -> option (list Z * list Z) -> Prop :=
  | read_loop_end acc : read_loop acc lines_end (Some acc)
  | read_loop_panic acc line rest :
      read_step acc line = None -> read_loop acc (lines_next line rest) None
  | read_loop_next acc acc' line rest res :
      read_step acc line = Some acc' -> read_loop acc' rest res ->
      read_loop acc (lines_next line rest) res.

CoInductive read_loop_diverges : list Z * list Z -> lines_iter -> Prop :=
  | read_loop_diverges_next acc acc' line rest :
      read_step acc line = Some acc' -> read_loop_diverges acc' rest ->
      read_loop_diverges acc (lines_next line rest).

(** [File::open] and then the general line iterator. *)
Definition stream_file := io_result lines_iter.

Definition stream_of_file (f : file) : stream_file :=
  match f with
  | Ok lines => Ok (lines_of_list lines)
  | Err e => Err e
  end.

(** [read_data_from_file] on a [stream_file]: the results of its runs
    that return. *)
Inductive read_data_from_stream : stream_file -> option (io_result (list Z * list Z)) -> Prop :=
  | read_stream_open_error e : read_data_from_stream (Err e) (Some (Err e))
  | read_stream_read it r :
      read_loop ([], []) it r -> read_data_from_stream (Ok it) (Ok <$> r).

(** One unfolding of an iterator, to expose its first item in proofs. *)
Definition lines_iter_frob (it : lines_iter) : lines_iter :=
  match it with
  | lines_end => lines_end
  | lines_next line rest => lines_next line rest
  end.

(* ------------------------------------------------------------------ *)
(** ** [calculate_total_distance] *)

(** [slice::sort] on [i32]: the ascending sorted permutation. *)
Definition sort_i32 (v : list Z) : list Z := merge_sort (≤) v.

(** [.map(|(l, r)| (l - r).abs()).sum()] over the zipped pairs; [sum] folds
    from 0 with [+]. *)
Fixpoint sum_abs_diffs (oc : bool) (acc : Z) (pairs : list (Z * Z)) : option Z :=
  match pairs with
  | [] => Some acc
  | (l, r) :: pairs' =>
      d ← i32_sub oc l r;
      a ← i32_abs oc d;
      acc' ← i32_add oc acc a;
      sum_abs_diffs oc acc' pairs'
  end.

Definition calculate_total_distance (oc : bool) (left_list right_list : list Z)
    : option Z :=
  let left_list := sort_i32 left_list in
  let right_list := sort_i32 right_list in
  sum_abs_diffs oc 0 (zip left_list right_list).

(* ------------------------------------------------------------------ *)
(** ** [calculate_similarity_score] *)

(** [for &num in &right_list { *right_counts.entry(num).or_insert(0) += 1; }] *)
Fixpoint count_into (oc : bool) (right_counts : gmap Z Z) (nums : list Z)
    : option (gmap Z Z) :=
  match nums with
  | [] => Some right_counts
  | num :: nums' =>
      c ← i32_add oc (default 0 (right_counts !! num)) 1;
      count_into oc (<[num := c]> right_counts) nums'
  end.

(** [for &num in &left_list { if let Some(&count) = right_counts.get(&num)
    { similarity_score += num * count; } }] *)
Fixpoint score_loop (oc : bool) (right_counts : gmap Z Z) (similarity_score : Z)
    (nums : list Z) : option Z :=
  match nums with
  | [] => Some similarity_score
  | num :: nums' =>
      match right_counts !! num with
      | Some count =>
          p ← i32_mul oc num count;
          s ← i32_add oc similarity_score p;
          score_loop oc right_counts s nums'
      | None => score_loop oc right_counts similarity_score nums'
      end
  end.

Definition calculate_similarity_score (oc : bool) (left_list right_list : list Z)
    : option Z :=
  right_counts ← count_into oc ∅ right_list;
  score_loop oc right_counts 0 left_list.

(** The loop with the lookup collapsed to a default of 0:
    [similarity_score += num * right_counts.get(&num).unwrap_or(0)]. *)
Fixpoint score_loop_default (oc : bool) (right_counts : gmap Z Z)
    (similarity_score : Z) (nums : list Z) : option Z :=
  match nums with
  | [] => Some similarity_score
  | num :: nums' =>
      p ← i32_mul oc num (default 0 (right_counts !! num));
      s ← i32_add oc similarity_score p;
      score_loop_default oc right_counts s nums'
  end.

(* ------------------------------------------------------------------ *)
(** ** The mathematical quantities of the spec *)

Definition z_sum (l : list Z) : Z := foldr Z.add 0 l.

(** Sum of [|sl[i] - sr[i]|] for [i < min (length sl) (length sr)]. *)
Definition paired_distance (sl sr : list Z) : Z :=
  z_sum (map (fun i => Z.abs (nth i sl 0 - nth i sr 0))
             (seq 0 (Nat.min (length sl) (length sr)))).

(** Sum of [|l - r|] over a list of pairs. *)
Definition abs_diffs (pairs : list (Z * Z)) : Z :=
  z_sum (map (fun p => Z.abs (p.1 - p.2)) pairs).

(** Number of occurrences of [v] in [r]. *)
Definition occurrences (v : Z) (r : list Z) : Z :=
  Z.of_nat (length (filter (fun x => x = v) r)).

(** Sum over the occurrences [v] of [l] of [v * occurrences v r]. *)
Definition similarity_sum (l r : list Z) : Z :=
  z_sum (map (fun v => v * occurrences v r) l).


(** The pairs the spec says the parser keeps: for each line read
    successfully whose valid integers are exactly two, that pair. *)
Fixpoint accepted_pairs (lines : list (io_result string)) : list (Z * Z) :=
  match lines with
  | [] => []
  | Ok record :: rest =>
      match parse_line record with
      | [a; b] => (a, b) :: accepted_pairs rest
      | _ => accepted_pairs rest
      end
  | Err _ :: rest => accepted_pairs rest
  end.

Definition is_ok_line (line : io_result string) : bool :=
  match line with Ok _ => true | Err _ => false end.

(* ------------------------------------------------------------------ *)
(** ** [part1], [part2] and [main] *)

(** [impl Display for i32] as used by [println!("{}", ..)]: decimal
    digits without leading zeros, a '-' before a negative value. *)
Definition fmt_i32 (z : Z) : string := NilEmpty.string_of_int (Z.to_int z).

(** What a run prints on stdout, and how it ends: [Some (Ok tt)] for
    [Ok(())], [Some (Err e)] for an I/O error returned, [None] for a
    panic. *)
Record outcome : Type := mk_outcome {
  stdout : list string;
  status : option (io_result unit)
}.

(** Both parts open the fixed path "1.txt"; [f] is what that open and
    the following reads see. *)
Definition part1 (oc : bool) (f : file) : outcome :=
  match read_data_from_file f with
  | None => mk_outcome [] None
  | Some (Err e) => mk_outcome [] (Some (Err e))
  | Some (Ok (left_list, right_list)) =>
      match calculate_total_distance oc left_list right_list with
      | None => mk_outcome [] None
      | Some total_distance =>
          mk_outcome [String.append "Distance totale : " (fmt_i32 total_distance)] (Some (Ok tt))
      end
  end.

Definition part2 (oc : bool) (f : file) : outcome :=
  match read_data_from_file f with
  | None => mk_outcome [] None
  | Some (Err e) => mk_outcome [] (Some (Err e))
  | Some (Ok (left_list, right_list)) =>
      match calculate_similarity_score oc left_list right_list with
      | None => mk_outcome [] None
      | Some similarity_score =>
          mk_outcome [String.append "Score de similarité : " (fmt_i32 similarity_score)] (Some (Ok tt))
      end
  end.

(** [part1()?; part2()?; Ok(())]: [f1] and [f2] are the file as the two
    parts open it. *)
Definition main (oc : bool) (f1 f2 : file) : outcome :=
  let o1 := part1 oc f1 in
  match status o1 with
  | Some (Ok _) =>
      let o2 := part2 oc f2 in
      mk_outcome (stdout o1 ++ stdout o2) (status o2)
  | _ => o1
  end.

(** The process exit status: [main] returning [Err] exits with 1, a panic
    with 101. *)
Definition exit_code (o : outcome) : Z :=
  match status o with
  | Some (Ok _) => 0
  | Some (Err _) => 1
  | None => 101
  end.

(* ------------------------------------------------------------------ *)
(** ** Sample evaluations *)

Example parse_line_ex1 : parse_line "3   4" = [3; 4].
Proof. reflexivity. Qed.
Example parse_line_ex2 : parse_line " +7 x -0 - + 2147483648 -2147483648" = [7; 0; -2147483648].
Proof. reflexivity. Qed.
Example parse_line_ex3 :
  parse_line (String "1"%char (String "194"%char (String "160"%char
    (String "2"%char (String "227"%char (String "128"%char (String "128"%char
    (String "3"%char EmptyString)))))))) = [1; 2; 3].
Proof. reflexivity. Qed.
Example dist_ex : calculate_total_distance true [3;4;2;1;3;3] [4;3;5;3;9;3] = Some 11.
Proof. reflexivity. Qed.
Example sim_ex : calculate_similarity_score true [3;4;2;1;3;3] [4;3;5;3;9;3] = Some 31.
Proof. reflexivity. Qed.
Example main_ex : main true (Ok [Ok "3 4"; Ok "4 3"; Ok "2 5"; Ok "1 3"; Ok "3 9"; Ok "3 3"])
  (Ok [Ok "3 4"; Ok "4 3"; Ok "2 5"; Ok "1 3"; Ok "3 9"; Ok "3 3"]) =
  mk_outcome ["Distance totale : 11"; "Score de similarité : 31"] (Some (Ok tt)).
Proof. reflexivity. Qed.
Example fmt_ex : fmt_i32 0 = "0" /\ fmt_i32 (-2147483648) = "-2147483648".
Proof. split; reflexivity. Qed.
Example dist_ovf : calculate_total_distance false [-2147483648] [0] = Some (-2147483648).
Proof. reflexivity. Qed.

(* ------------------------------------------------------------------ *)
(** ** Lemmas on the parser *)

Lemma read_step_spec (left_list right_list : list Z) (line : io_result string) :
  read_step (left_list, right_list) line =
  Some (left_list ++ map fst (accepted_pairs [line]),
        right_list ++ map snd (accepted_pairs [line])).
Proof.
  destruct line as [record|e]; simpl; [|by rewrite !app_nil_r].
  destruct (parse_line record) as [|a [|b [|c rest]]]; simpl;
    by rewrite ?app_nil_r.
Qed.

Lemma accepted_pairs_cons (line : io_result string) lines :
  accepted_pairs (line :: lines) = accepted_pairs [line] ++ accepted_pairs lines.
Proof.
  destruct line as [record|e]; simpl; [|done].
  by destruct (parse_line record) as [|a [|b [|c rest]]].
Qed.

Lemma read_lines_spec (left_list right_list : list Z) lines :
  read_lines (left_list, right_list) lines =
  Some (left_list ++ map fst (accepted_pairs lines),
        right_list ++ map snd (accepted_pairs lines)).
Proof.
  revert left_list right_list.
  induction lines as [|line lines IH]; intros left_list right_list; cbn [read_lines].
  - by rewrite !app_nil_r.
  - rewrite read_step_spec, (accepted_pairs_cons line lines). simpl.
    rewrite IH, !map_app, !app_assoc. done.
Qed.

Lemma read_data_from_file_ok lines :
  read_data_from_file (Ok lines) =
  Some (Ok (map fst (accepted_pairs lines), map snd (accepted_pairs lines))).
Proof. unfold read_data_from_file. by rewrite read_lines_spec. Qed.

Lemma accepted_pairs_filter_ok lines :
  accepted_pairs (filter (fun l => is_ok_line l = true) lines) = accepted_pairs lines.
Proof.
  induction lines as [|[record|e] lines IH]; [done| |].
  - rewrite filter_cons_True by done. simpl. by rewrite IH.
  - rewrite filter_cons_False by done. simpl. done.
Qed.

Lemma read_step_some (acc : list Z * list Z) (line : io_result string) :
  exists acc', read_step acc line = Some acc'.
Proof. destruct acc as [l r]. rewrite read_step_spec. by eexists. Qed.

Lemma lines_iter_frob_eq (it : lines_iter) : it = lines_iter_frob it.
Proof. by destruct it. Qed.

(** On a finite stream the loop computes [read_lines]. *)
Lemma read_loop_lines (acc : list Z * list Z) lines r :
  read_loop acc (lines_of_list lines) r <-> r = read_lines acc lines.
Proof.
  revert acc r. induction lines as [|line lines IH]; intros acc r; simpl; split.
  - intros H. by inversion H.
  - intros ->. constructor.
  - intros H. inversion H as [|? ? ? Hn|? acc' ? ? ? Hs Hl]; subst.
    + destruct (read_step_some acc line) as [? Ha]. congruence.
    + rewrite Hs. simpl. by apply IH.
  - intros ->. destruct (read_step_some acc line) as [acc' Ha]. rewrite Ha. simpl.
    econstructor; [exact Ha|]. by apply IH.
Qed.

Lemma read_data_stream_file (f : file) r :
  read_data_from_stream (stream_of_file f) r <-> r = read_data_from_file f.
Proof.
  assert (Hf : forall lines, read_data_from_file (Ok lines) =
                             Ok <$> read_lines ([], []) lines).
  { intros lines. unfold read_data_from_file. by destruct (read_lines ([], []) lines). }
  destruct f as [lines|e]; cbn [stream_of_file]; split.
  - intros H. inversion H as [|it r' Hl]; subst.
    apply read_loop_lines in Hl. by rewrite Hl, Hf.
  - intros ->. rewrite Hf. constructor. by apply read_loop_lines.
  - intros H. by inversion H.
  - intros ->. constructor.
Qed.

(** The loop body never panics: a run that returns returns lists. *)
Lemma read_loop_some (acc : list Z * list Z) it r :
  read_loop acc it r -> exists p, r = Some p.
Proof.
  induction 1 as [acc|acc line rest Hn|acc acc' line rest res Hs Hl IH]; [by eexists| |done].
  destruct (read_step_some acc line) as [? Ha]. congruence.
Qed.

(** A run cannot both return and go on forever. *)
Lemma read_loop_not_both (acc : list Z * list Z) it r :
  read_loop_diverges acc it -> read_loop acc it r -> False.
Proof.
  intros Hd Hl. revert Hd.
  induction Hl as [acc|acc line rest Hn|acc acc' line rest res Hs Hl IH]; intros Hd.
  - inversion Hd.
  - inversion Hd as [? ? ? ? Hs' _]; subst. congruence.
  - inversion Hd as [? acc'' ? ? Hs' Hd']; subst.
    rewrite Hs in Hs'. injection Hs' as <-. exact (IH Hd').
Qed.

Lemma read_loop_deterministic (acc : list Z * list Z) it r r' :
  read_loop acc it r -> read_loop acc it r' -> r = r'.
Proof.
  intros Hl. revert r'.
  induction Hl as [acc|acc line rest Hn|acc acc' line rest res Hs Hl IH]; intros r' Hl'.
  - by inversion Hl'.
  - inversion Hl' as [|? ? ? _|? acc'' ? ? ? Hs' _]; subst; [done|congruence].
  - inversion Hl' as [|? ? ? Hn'|? acc'' ? ? ? Hs' Hl'']; subst; [congruence|].
    rewrite Hs in Hs'. injection Hs' as <-. by apply IH.
Qed.

Lemma read_loop_finite (acc : list Z * list Z) it r :
  read_loop acc it r -> lines_finite it.
Proof.
  induction 1 as [acc|acc line rest Hn|acc acc' line rest res Hs Hl IH].
  - constructor.
  - destruct (read_step_some acc line) as [? Ha]. congruence.
  - by constructor.
Qed.

Lemma read_loop_returns (acc : list Z * list Z) it :
  lines_finite it -> exists r, read_loop acc it r.
Proof.
  intros Hf. revert acc. induction Hf as [|line rest Hf IH]; intros acc.
  - eexists. constructor.
  - destruct (read_step_some acc line) as [acc' Ha]. destruct (IH acc') as [r Hr].
    exists r. by econstructor.
Qed.

(** A run that does not return goes on forever. *)
Lemma read_loop_no_return_diverges :
  forall (acc : list Z * list Z) it,
  ~ (exists r, read_loop acc it r) -> read_loop_diverges acc it.
Proof.
  cofix CIH. intros acc it Hn. destruct it as [|line rest].
  - exfalso. apply Hn. eexists. constructor.
  - destruct (read_step_some acc line) as [acc' Ha].
    econstructor; [exact Ha|]. apply CIH.
    intros [r Hr]. apply Hn. exists r. by econstructor.
Qed.

Lemma read_error_forever_diverges :
  forall (e : io_error) (acc : list Z * list Z),
  read_loop_diverges acc (read_error_forever e).
Proof.
  cofix CIH. intros e [l r].
  rewrite (lines_iter_frob_eq (read_error_forever e)). simpl.
  econstructor; [reflexivity|apply CIH].
Qed.

(* ------------------------------------------------------------------ *)
(** ** Lemmas on [i32] arithmetic *)

Lemma in_i32_iff (z : Z) : in_i32 z = true <-> i32_min <= z <= i32_max.
Proof. unfold in_i32. rewrite andb_true_iff, !Z.leb_le. done. Qed.

Lemma in_i32_false (z : Z) : in_i32 z = false <-> z < i32_min \/ i32_max < z.
Proof.
  destruct (in_i32 z) eqn:E.
  - apply in_i32_iff in E. unfold i32_min, i32_max in *. split; [done|lia].
  - split; [|done]. intros _.
    destruct (Z_le_gt_dec i32_min z), (Z_le_gt_dec z i32_max); try lia.
    exfalso. assert (in_i32 z = true) by (apply in_i32_iff; lia). congruence.
Qed.

Ltac i32_bounds :=
  repeat match goal with
  | H : in_i32 _ = true |- _ => apply in_i32_iff in H
  | H : in_i32 _ = false |- _ => apply in_i32_false in H
  end; unfold i32_min, i32_max in *.

Lemma wrap32_id (z : Z) : i32_min <= z <= i32_max -> wrap32 z = z.
Proof. unfold wrap32, i32_min, i32_max. intros. Z.div_mod_to_equations. lia. Qed.

Lemma wrap32_range (z : Z) : i32_min <= wrap32 z <= i32_max.
Proof. unfold wrap32, i32_min, i32_max. Z.div_mod_to_equations. lia. Qed.

(** [wrap32] only depends on its argument modulo 2^32. *)
Lemma wrap32_shift (z k : Z) : wrap32 (z + k * 4294967296) = wrap32 z.
Proof.
  unfold wrap32. f_equal.
  replace (z + k * 4294967296 + 2147483648)
    with (z + 2147483648 + k * 4294967296) by lia.
  apply Z_mod_plus_full.
Qed.

Lemma wrap32_decomp (z : Z) : exists k, wrap32 z = z + k * 4294967296.
Proof.
  exists (- ((z + 2147483648) / 4294967296)). unfold wrap32.
  pose proof (Z.div_mod (z + 2147483648) 4294967296 ltac:(lia)). lia.
Qed.

Lemma wrap32_add (a b : Z) : wrap32 (wrap32 a + b) = wrap32 (a + b).
Proof.
  destruct (wrap32_decomp a) as [k ->].
  replace (a + k * 4294967296 + b) with ((a + b) + k * 4294967296) by lia.
  apply wrap32_shift.
Qed.

Lemma i32_result_in (oc : bool) (z : Z) :
  i32_min <= z <= i32_max -> i32_result oc z = Some z.
Proof.
  intros Hz. unfold i32_result.
  by replace (in_i32 z) with true by (symmetry; by apply in_i32_iff).
Qed.

Lemma i32_result_checked (z v : Z) :
  i32_result true z = Some v -> v = z /\ i32_min <= z <= i32_max.
Proof.
  unfold i32_result. destruct (in_i32 z) eqn:E; [|done].
  intros [= <-]. by apply in_i32_iff in E.
Qed.

Lemma i32_result_wrapping (z : Z) : i32_result false z = Some (wrap32 z).
Proof.
  unfold i32_result. destruct (in_i32 z) eqn:E; [|done].
  apply in_i32_iff in E. by rewrite wrap32_id.
Qed.

(* ------------------------------------------------------------------ *)
(** ** Lemmas on [calculate_total_distance] *)

Lemma abs_diffs_nonneg pairs : 0 <= abs_diffs pairs.
Proof.
  unfold abs_diffs. induction pairs as [|[l r] pairs IH]; simpl; lia.
Qed.

Lemma abs_diffs_cons (l r : Z) pairs :
  abs_diffs ((l, r) :: pairs) = Z.abs (l - r) + abs_diffs pairs.
Proof. done. Qed.

Lemma sort_i32_sorted (v : list Z) : Sorted (≤) (sort_i32 v).
Proof. apply Sorted_merge_sort, _. Qed.

Lemma sort_i32_perm (v : list Z) : sort_i32 v ≡ₚ v.
Proof. apply merge_sort_Permutation. Qed.

(** Any ascending permutation of [v] is [sort_i32 v]. *)
Lemma sort_i32_unique (v s : list Z) : Sorted (≤) s -> s ≡ₚ v -> sort_i32 v = s.
Proof.
  intros Hs Hp. apply (Sorted_unique (≤)); [apply sort_i32_sorted|done|].
  by rewrite sort_i32_perm.
Qed.

Lemma sum_abs_diffs_fits (oc : bool) (acc : Z) pairs :
  0 <= acc -> acc + abs_diffs pairs <= i32_max ->
  sum_abs_diffs oc acc pairs = Some (acc + abs_diffs pairs).
Proof.
  revert acc. induction pairs as [|[l r] pairs IH]; intros acc Hacc Hsum.
  - simpl. f_equal. unfold abs_diffs. simpl. lia.
  - pose proof (abs_diffs_nonneg pairs) as Hn.
    rewrite abs_diffs_cons in Hsum |- *. cbn [sum_abs_diffs].
    unfold i32_sub, i32_abs, i32_add. unfold i32_max in *.
    rewrite (i32_result_in oc (l - r)) by (unfold i32_min, i32_max; lia). simpl.
    rewrite (i32_result_in oc (Z.abs (l - r))) by (unfold i32_min, i32_max; lia).
    simpl.
    rewrite (i32_result_in oc (acc + Z.abs (l - r))) by (unfold i32_min, i32_max; lia).
    simpl. rewrite IH by (unfold i32_max; lia). f_equal. lia.
Qed.

Lemma sum_abs_diffs_checked (acc v : Z) pairs :
  acc <= i32_max -> sum_abs_diffs true acc pairs = Some v ->
  v = acc + abs_diffs pairs /\ v <= i32_max.
Proof.
  revert acc. induction pairs as [|[l r] pairs IH]; intros acc Hacc Hrun.
  - simpl in Hrun. injection Hrun as <-. unfold abs_diffs. simpl. lia.
  - simpl in Hrun.
    destruct (i32_sub true l r) as [d|] eqn:Hd; [|done]. simpl in Hrun.
    destruct (i32_abs true d) as [a|] eqn:Ha; [|done]. simpl in Hrun.
    destruct (i32_add true acc a) as [acc'|] eqn:Hs; [|done]. simpl in Hrun.
    apply i32_result_checked in Hd as [-> _].
    apply i32_result_checked in Ha as [-> _].
    apply i32_result_checked in Hs as [-> Hb].
    destruct (IH (acc + Z.abs (l - r)) ltac:(lia) Hrun) as [-> Hv].
    rewrite abs_diffs_cons. lia.
Qed.

Lemma abs_diffs_zip (sl sr : list Z) :
  abs_diffs (zip sl sr) = paired_distance sl sr.
Proof.
  revert sr. induction sl as [|a sl IH]; intros [|b sr]; try done.
  unfold paired_distance in *. simpl.
  rewrite <- seq_shift, map_map. simpl.
  unfold abs_diffs in *. simpl. rewrite IH. done.
Qed.

(** [calculate_total_distance] against the paired distance of the sorted
    lists: exact when that fits in [i32], a panic above it when overflow
    checks are on. *)
Lemma total_distance_spec (oc : bool) (left_list right_list : list Z) :
  (paired_distance (sort_i32 left_list) (sort_i32 right_list) <= i32_max ->
   calculate_total_distance oc left_list right_list =
   Some (paired_distance (sort_i32 left_list) (sort_i32 right_list))) /\
  (forall v, calculate_total_distance true left_list right_list = Some v ->
   v = paired_distance (sort_i32 left_list) (sort_i32 right_list) /\ v <= i32_max).
Proof.
  unfold calculate_total_distance. rewrite <- abs_diffs_zip. split.
  - intros H. rewrite sum_abs_diffs_fits; [f_equal; lia|lia|lia].
  - intros v Hv. apply sum_abs_diffs_checked in Hv; [lia|unfold i32_max; lia].
Qed.

(** Without overflow checks each difference wraps, [abs] and the sum
    wrap: the result is the sum of [|wrap32 (l - r)|] wrapped to [i32]. *)
Lemma sum_abs_diffs_wrapping (acc : Z) (pairs : list (Z * Z)) :
  i32_min <= acc <= i32_max ->
  sum_abs_diffs false acc pairs =
  Some (wrap32 (acc + z_sum (map (fun p => Z.abs (wrap32 (p.1 - p.2))) pairs))).
Proof.
  revert acc. induction pairs as [|[l r] pairs IH]; intros acc Hacc.
  - simpl. by rewrite Z.add_0_r, wrap32_id.
  - cbn [sum_abs_diffs]. unfold i32_sub, i32_abs, i32_add.
    rewrite i32_result_wrapping. simpl. rewrite i32_result_wrapping. simpl.
    rewrite i32_result_wrapping. simpl.
    rewrite IH by apply wrap32_range. f_equal.
    rewrite wrap32_add.
    destruct (wrap32_decomp (Z.abs (wrap32 (l - r)))) as [k ->].
    replace (acc + (Z.abs (wrap32 (l - r)) + k * 4294967296) +
             z_sum (map (fun p => Z.abs (wrap32 (p.1 - p.2))) pairs))
      with (acc + (Z.abs (wrap32 (l - r)) +
             z_sum (map (fun p => Z.abs (wrap32 (p.1 - p.2))) pairs)) + k * 4294967296)
      by lia.
    apply wrap32_shift.
Qed.

Lemma zip_sum_index (g : Z -> Z -> Z) (sl sr : list Z) :
  z_sum (map (fun p => g p.1 p.2) (zip sl sr)) =
  z_sum (map (fun i => g (nth i sl 0) (nth i sr 0))
             (seq 0 (Nat.min (length sl) (length sr)))).
Proof.
  revert sr. induction sl as [|a sl IH]; intros [|b sr]; try done.
  simpl. rewrite <- seq_shift, map_map. simpl. unfold z_sum in *. simpl.
  by rewrite IH.
Qed.

Lemma sum_abs_diffs_cons (oc : bool) (acc l r : Z) pairs :
  sum_abs_diffs oc acc ((l, r) :: pairs) =
  (i32_sub oc l r ≫= i32_abs oc) ≫=
    (fun a => acc' ← i32_add oc acc a; sum_abs_diffs oc acc' pairs).
Proof. simpl. by destruct (i32_sub oc l r). Qed.

(** [(l - r).abs()] and [(r - l).abs()] agree in both profiles, also when
    they overflow. *)
Lemma abs_diff_sym (oc : bool) (l r : Z) :
  i32_sub oc l r ≫= i32_abs oc = i32_sub oc r l ≫= i32_abs oc.
Proof.
  unfold i32_sub, i32_abs. destruct oc.
  - replace (r - l) with (- (l - r)) by lia.
    unfold i32_result.
    destruct (in_i32 (l - r)) eqn:E1, (in_i32 (- (l - r))) eqn:E2; simpl;
      rewrite ?Z.abs_opp; try done;
      destruct (in_i32 (Z.abs (l - r))) eqn:E3; try done; i32_bounds; lia.
  - rewrite !i32_result_wrapping. simpl. rewrite !i32_result_wrapping.
    f_equal. unfold wrap32. Z.div_mod_to_equations. lia.
Qed.

Lemma sum_abs_diffs_swap (oc : bool) (acc : Z) (a b : list Z) :
  sum_abs_diffs oc acc (zip a b) = sum_abs_diffs oc acc (zip b a).
Proof.
  revert acc b. induction a as [|x a IH]; intros acc [|y b]; try done.
  cbn [zip zip_with]. rewrite !sum_abs_diffs_cons, abs_diff_sym.
  destruct (i32_sub oc y x ≫= i32_abs oc); simpl; [|done].
  destruct (i32_add oc acc z); simpl; [apply IH|done].
Qed.

Lemma abs_diffs_zip_self (s : list Z) : abs_diffs (zip s s) = 0.
Proof.
  induction s as [|x s IH]; [done|].
  cbn [zip zip_with]. rewrite abs_diffs_cons, IH. lia.
Qed.

(* ------------------------------------------------------------------ *)
(** ** Lemmas on [calculate_similarity_score] *)

Lemma wrap32_eq_iff (a b : Z) :
  wrap32 a = wrap32 b <-> exists k, a = b + k * 4294967296.
Proof.
  split.
  - destruct (wrap32_decomp a) as [ka Ha], (wrap32_decomp b) as [kb Hb].
    intros E. exists (kb - ka). lia.
  - intros [k ->]. apply wrap32_shift.
Qed.

Lemma occurrences_nil (v : Z) : occurrences v [] = 0.
Proof. done. Qed.

Lemma occurrences_cons (v x : Z) (r : list Z) :
  occurrences v (x :: r) = (if decide (x = v) then 1 else 0) + occurrences v r.
Proof.
  unfold occurrences. rewrite filter_cons.
  case_decide; simpl; lia.
Qed.

Lemma occurrences_nonneg (v : Z) (r : list Z) : 0 <= occurrences v r.
Proof. unfold occurrences. lia. Qed.

Lemma count_into_spec (oc : bool) (m m' : gmap Z Z) (nums : list Z) :
  count_into oc m nums = Some m' ->
  forall v,
    wrap32 (default 0 (m' !! v)) = wrap32 (default 0 (m !! v) + occurrences v nums) /\
    (oc = true -> default 0 (m' !! v) = default 0 (m !! v) + occurrences v nums).
Proof.
  revert m. induction nums as [|num nums IH]; intros m Hrun v.
  - injection Hrun as <-. rewrite occurrences_nil, Z.add_0_r. done.
  - cbn [count_into] in Hrun.
    destruct (i32_add oc (default 0 (m !! num)) 1) as [c|] eqn:Hc; [|done].
    simpl in Hrun. destruct (IH _ Hrun v) as [Hw Hchk].
    rewrite occurrences_cons.
    destruct (decide (num = v)) as [<-|Hne].
    + rewrite lookup_insert_eq in Hw, Hchk. simpl in Hw, Hchk. split.
      * rewrite Hw. destruct oc.
        -- apply i32_result_checked in Hc as [-> _].
           f_equal. lia.
        -- unfold i32_add in Hc. rewrite i32_result_wrapping in Hc.
           injection Hc as <-. rewrite wrap32_add. f_equal. lia.
      * intros ->. rewrite Hchk by done.
        apply i32_result_checked in Hc as [-> _]. lia.
    + rewrite lookup_insert_ne in Hw, Hchk by done. rewrite Z.add_0_l. done.
Qed.

Lemma count_into_some (oc : bool) (m : gmap Z Z) (nums : list Z) :
  (forall v, 0 <= default 0 (m !! v) /\
             default 0 (m !! v) + Z.of_nat (length nums) <= i32_max) ->
  exists m', count_into oc m nums = Some m'.
Proof.
  revert m. induction nums as [|num nums IH]; intros m Hm; [by eexists|].
  cbn [count_into]. destruct (Hm num) as [H0 H1]. simpl in H1.
  unfold i32_add. rewrite i32_result_in by (unfold i32_min, i32_max in *; lia).
  simpl. apply IH. intros v. destruct (decide (num = v)) as [<-|Hne].
  - rewrite lookup_insert_eq. simpl. lia.
  - rewrite lookup_insert_ne by done. destruct (Hm v). simpl in *. lia.
Qed.

Lemma i32_result_range (oc : bool) (z v : Z) :
  i32_result oc z = Some v -> i32_min <= v <= i32_max.
Proof.
  unfold i32_result. destruct (in_i32 z) eqn:E.
  - intros [= <-]. by apply in_i32_iff.
  - destruct oc; [done|]. intros [= <-]. apply wrap32_range.
Qed.

(** The [if let Some(&count)] form and the default-0 form coincide: an
    absent value adds [num * 0 = 0] to a score that is always in range. *)
Lemma score_loop_default_eq (oc : bool) (m : gmap Z Z) (s : Z) (nums : list Z) :
  i32_min <= s <= i32_max ->
  score_loop oc m s nums = score_loop_default oc m s nums.
Proof.
  revert s. induction nums as [|num nums IH]; intros s Hs; [done|].
  cbn [score_loop score_loop_default].
  destruct (m !! num) as [count|]; simpl.
  - destruct (i32_mul oc num count); simpl; [|done].
    destruct (i32_add oc s z) eqn:E; simpl; [|done].
    apply IH. by apply i32_result_range in E.
  - unfold i32_mul. rewrite Z.mul_0_r, i32_result_in by (unfold i32_min, i32_max; lia).
    simpl. unfold i32_add. rewrite Z.add_0_r, i32_result_in by done.
    simpl. by apply IH.
Qed.

Lemma score_default_checked (m : gmap Z Z) (s v : Z) (nums : list Z) :
  score_loop_default true m s nums = Some v ->
  v = s + z_sum (map (fun n => n * default 0 (m !! n)) nums).
Proof.
  revert s. induction nums as [|num nums IH]; intros s Hrun.
  - injection Hrun as <-. simpl. lia.
  - cbn [score_loop_default] in Hrun.
    destruct (i32_mul true num (default 0 (m !! num))) as [p|] eqn:Hp; [|done].
    simpl in Hrun. destruct (i32_add true s p) as [s'|] eqn:Hs; [|done].
    simpl in Hrun. apply i32_result_checked in Hp as [-> _].
    apply i32_result_checked in Hs as [-> _].
    rewrite (IH _ Hrun). simpl. lia.
Qed.

Lemma score_default_wrapping (m : gmap Z Z) (s : Z) (nums : list Z) :
  i32_min <= s <= i32_max ->
  score_loop_default false m s nums =
  Some (wrap32 (s + z_sum (map (fun n => n * default 0 (m !! n)) nums))).
Proof.
  revert s. induction nums as [|num nums IH]; intros s Hs.
  - simpl. by rewrite Z.add_0_r, wrap32_id.
  - cbn [score_loop_default]. unfold i32_mul, i32_add.
    rewrite !i32_result_wrapping. simpl. rewrite i32_result_wrapping. simpl.
    rewrite IH by apply wrap32_range. f_equal.
    rewrite wrap32_add.
    replace (s + wrap32 (num * default 0 (m !! num)) +
             z_sum (map (fun n => n * default 0 (m !! n)) nums))
      with (wrap32 (num * default 0 (m !! num)) +
            (s + z_sum (map (fun n => n * default 0 (m !! n)) nums))) by lia.
    rewrite wrap32_add. f_equal. lia.
Qed.

Lemma score_default_fits (oc : bool) (m : gmap Z Z) (s : Z) (nums : list Z) :
  0 <= s -> Forall (fun n => 0 <= n) nums ->
  (forall n, 0 <= default 0 (m !! n)) ->
  s + z_sum (map (fun n => n * default 0 (m !! n)) nums) <= i32_max ->
  score_loop_default oc m s nums =
  Some (s + z_sum (map (fun n => n * default 0 (m !! n)) nums)).
Proof.
  intros Hs Hnums Hm. revert s Hs.
  induction Hnums as [|num nums Hnum Hnums IH]; intros s Hs Hsum.
  - simpl. f_equal. lia.
  - cbn [score_loop_default]. simpl in Hsum.
    assert (0 <= num * default 0 (m !! num)) by (specialize (Hm num); nia).
    assert (0 <= z_sum (map (fun n => n * default 0 (m !! n)) nums)).
    { clear IH Hsum. induction Hnums as [|x xs Hx Hxs IHx]; simpl; [lia|].
      specialize (Hm x). nia. }
    unfold i32_mul, i32_add.
    rewrite i32_result_in by (unfold i32_min, i32_max in *; lia). simpl.
    rewrite i32_result_in by (unfold i32_min, i32_max in *; lia). simpl.
    rewrite IH by lia. simpl. f_equal. lia.
Qed.

Lemma weighted_sum_cong (c o : Z -> Z) (nums : list Z) :
  (forall n, wrap32 (c n) = wrap32 (o n)) ->
  exists k, z_sum (map (fun n => n * c n) nums) =
            z_sum (map (fun n => n * o n) nums) + k * 4294967296.
Proof.
  intros Hco. induction nums as [|num nums [k2 IH]]; [by exists 0|].
  destruct (proj1 (wrap32_eq_iff _ _) (Hco num)) as [k1 Hk1].
  exists (num * k1 + k2). simpl. rewrite IH, Hk1. ring.
Qed.

Lemma z_sum_perm (l l' : list Z) : l ≡ₚ l' -> z_sum l = z_sum l'.
Proof. unfold z_sum. induction 1; simpl; lia. Qed.

Lemma occurrences_perm (v : Z) (r r' : list Z) : r ≡ₚ r' -> occurrences v r = occurrences v r'.
Proof. unfold occurrences. intros Hp. by rewrite Hp. Qed.

Lemma similarity_sum_perm (l l' r r' : list Z) :
  l ≡ₚ l' -> r ≡ₚ r' -> similarity_sum l r = similarity_sum l' r'.
Proof.
  intros Hl Hr. unfold similarity_sum.
  rewrite (z_sum_perm _ _ (Permutation_map (fun v => v * occurrences v r) Hl)).
  f_equal. apply map_ext. intros v. by rewrite (occurrences_perm v r r').
Qed.

Lemma i32_result_checked_any (oc : bool) (z v : Z) :
  i32_result true z = Some v -> i32_result oc z = Some v.
Proof.
  intros H. pose proof H as H'. apply i32_result_checked in H' as [-> Hz].
  by apply i32_result_in.
Qed.

Lemma count_into_checked_any (oc : bool) (m m' : gmap Z Z) (nums : list Z) :
  count_into true m nums = Some m' -> count_into oc m nums = Some m'.
Proof.
  revert m. induction nums as [|num nums IH]; intros m Hrun; [done|].
  cbn [count_into] in Hrun |- *.
  destruct (i32_add true (default 0 (m !! num)) 1) as [c|] eqn:Hc; [|done].
  unfold i32_add in *. rewrite (i32_result_checked_any oc _ _ Hc). simpl.
  by apply IH.
Qed.

Lemma count_into_wrapping_some (m : gmap Z Z) (nums : list Z) :
  exists m', count_into false m nums = Some m'.
Proof.
  revert m. induction nums as [|num nums IH]; intros m; [by eexists|].
  cbn [count_into]. unfold i32_add. rewrite i32_result_wrapping. simpl. apply IH.
Qed.

Lemma score_loop_empty (oc : bool) (nums : list Z) :
  score_loop oc ∅ 0 nums = Some 0.
Proof.
  induction nums as [|num nums IH]; [done|].
  cbn [score_loop]. by rewrite lookup_empty.
Qed.

(** [calculate_similarity_score] against the sum over [left_list] of
    [v * occurrences v right_list]. *)
Lemma similarity_spec (oc : bool) (left_list right_list : list Z) :
  (forall v, calculate_similarity_score true left_list right_list = Some v ->
     v = similarity_sum left_list right_list) /\
  calculate_similarity_score false left_list right_list =
    Some (wrap32 (similarity_sum left_list right_list)) /\
  (Forall (fun v => 0 <= v) left_list ->
   Z.of_nat (length right_list) <= i32_max ->
   similarity_sum left_list right_list <= i32_max ->
   calculate_similarity_score oc left_list right_list =
     Some (similarity_sum left_list right_list)).
Proof.
  unfold calculate_similarity_score. split; [|split].
  - intros v Hv.
    destruct (count_into true ∅ right_list) as [m|] eqn:Hm; [|done]. simpl in Hv.
    rewrite score_loop_default_eq in Hv by (unfold i32_min, i32_max; lia).
    rewrite (score_default_checked _ _ _ _ Hv). unfold similarity_sum.
    rewrite Z.add_0_l. f_equal. apply map_ext. intros n. f_equal.
    destruct (count_into_spec _ _ _ _ Hm n) as [_ Hn].
    rewrite Hn, lookup_empty by done. simpl. lia.
  - destruct (count_into_wrapping_some ∅ right_list) as [m Hm]. rewrite Hm. simpl.
    rewrite score_loop_default_eq by (unfold i32_min, i32_max; lia).
    rewrite score_default_wrapping by (unfold i32_min, i32_max; lia).
    f_equal. rewrite Z.add_0_l. apply wrap32_eq_iff.
    apply weighted_sum_cong. intros n.
    destruct (count_into_spec _ _ _ _ Hm n) as [Hn _].
    rewrite Hn, lookup_empty. simpl. by rewrite Z.add_0_l.
  - intros Hl Hlen Hsum.
    destruct (count_into_some true ∅ right_list) as [m Hm].
    { intros v. rewrite lookup_empty. simpl. lia. }
    rewrite (count_into_checked_any oc _ _ _ Hm). simpl.
    assert (Hocc : forall n, default 0 (m !! n) = occurrences n right_list).
    { intros n. destruct (count_into_spec _ _ _ _ Hm n) as [_ Hn].
      rewrite Hn, lookup_empty by done. simpl. lia. }
    assert (Hw : z_sum (map (fun n => n * default 0 (m !! n)) left_list) =
                 similarity_sum left_list right_list).
    { unfold similarity_sum. f_equal. apply map_ext. intros n. by rewrite Hocc. }
    rewrite score_loop_default_eq by (unfold i32_min, i32_max; lia).
    rewrite score_default_fits; [by rewrite Hw| lia | done | |].
    + intros n. rewrite Hocc. apply occurrences_nonneg.
    + lia.
Qed.

(* ------------------------------------------------------------------ *)
(** ** The claims *)

(** Claim C1: on an opened file, every line read successfully is split on
    whitespace and its tokens that parse as [i32] are kept; the line adds
    its first number to the left list and its second to the right list
    exactly when two numbers remain, and is dropped otherwise.  The
    malformed-lines scenario of the spec gives [[3]] and [[4]]. *)
Theorem read_data_from_file_exact_two (lines : list (io_result string)) :
  read_data_from_file (Ok lines) =
    Some (Ok (map fst (accepted_pairs lines), map snd (accepted_pairs lines))) /\
  read_data_from_file (Ok [Ok "3 4"; Ok "notanumber"; Ok "5"; Ok "1 2 3"]) =
    Some (Ok ([3], [4])).
Proof. split; [apply read_data_from_file_ok|reflexivity]. Qed.

(** Claim C2 (as it holds): a file that cannot be opened gives the open
    error and nothing else.  A read error on a line is skipped like a
    malformed line: on a line stream that ends, the result is that of the
    lines read successfully, and once the file is open the function never
    returns an error.  When every read fails (e.g. "1.txt" is a directory),
    the loop runs forever and the function does not return.  The general
    iterator agrees with [read_data_from_file] on finite streams. *)
Theorem read_data_from_file_io_errors :
  (forall e r, read_data_from_stream (Err e) r <-> r = Some (Err e)) /\
  (forall lines, read_data_from_file (Ok lines) =
     read_data_from_file (Ok (filter (fun l => is_ok_line l = true) lines))) /\
  (forall it r, read_data_from_stream (Ok it) r ->
     exists left_list right_list, r = Some (Ok (left_list, right_list))) /\
  (forall e, read_loop_diverges ([], []) (read_error_forever e) /\
     forall r, ~ read_data_from_stream (Ok (read_error_forever e)) r) /\
  (forall f r, read_data_from_stream (stream_of_file f) r <-> r = read_data_from_file f).
Proof.
  split; [|split; [|split; [|split]]].
  - intros e r. split; [intros H; by inversion H|intros ->; constructor].
  - intros lines. by rewrite !read_data_from_file_ok, accepted_pairs_filter_ok.
  - intros it r H. inversion H as [|it' r' Hl]; subst.
    destruct (read_loop_some _ _ _ Hl) as [[l r] ->]. by do 2 eexists.
  - intros e. split; [apply read_error_forever_diverges|].
    intros r H. inversion H as [|it' r' Hl]; subst.
    exact (read_loop_not_both _ _ _ (read_error_forever_diverges e ([], [])) Hl).
  - apply read_data_stream_file.
Qed.

(** Claim C2, counterexample: a read error on the second line does not
    abort the read; the other two lines are returned. *)
Lemma read_error_mid_stream_skipped :
  read_data_from_file (Ok [Ok "1 2"; Err InvalidData; Ok "3 4"]) =
  Some (Ok ([1; 3], [2; 4])).
Proof. reflexivity. Qed.

(** Claim C3 (as it holds): for ascending permutations [sl] of [left_list]
    and [sr] of [right_list], let S be the sum of [|sl[i] - sr[i]|] over
    [i < min].  When S fits in [i32] the function returns it, in both build
    profiles; above [i32::MAX] a build with overflow checks panics.  A
    build without overflow checks always returns the sum of
    [|wrap32 (sl[i] - sr[i])|] wrapped to [i32], which is S wrapped to
    [i32] when no difference [sl[i] - sr[i]] overflows. *)
Theorem total_distance_paired_sum (oc : bool) (left_list right_list sl sr : list Z) :
  Sorted (≤) sl -> sl ≡ₚ left_list -> Sorted (≤) sr -> sr ≡ₚ right_list ->
  (paired_distance sl sr <= i32_max ->
   calculate_total_distance oc left_list right_list = Some (paired_distance sl sr)) /\
  (i32_max < paired_distance sl sr ->
   calculate_total_distance true left_list right_list = None) /\
  calculate_total_distance false left_list right_list =
    Some (wrap32 (z_sum (map (fun i => Z.abs (wrap32 (nth i sl 0 - nth i sr 0)))
                             (seq 0 (Nat.min (length sl) (length sr)))))) /\
  ((forall i, (i < Nat.min (length sl) (length sr))%nat ->
      i32_min <= nth i sl 0 - nth i sr 0 <= i32_max) ->
   calculate_total_distance false left_list right_list =
     Some (wrap32 (paired_distance sl sr))).
Proof.
  intros Hsl Hpl Hsr Hpr.
  rewrite <- (sort_i32_unique left_list sl), <- (sort_i32_unique right_list sr) by done.
  destruct (total_distance_spec oc left_list right_list) as [Hfit Hchk].
  assert (Hrel : calculate_total_distance false left_list right_list =
    Some (wrap32 (z_sum (map (fun i => Z.abs (wrap32 (nth i (sort_i32 left_list) 0 -
                                                       nth i (sort_i32 right_list) 0)))
                             (seq 0 (Nat.min (length (sort_i32 left_list))
                                             (length (sort_i32 right_list)))))))).
  { unfold calculate_total_distance.
    rewrite sum_abs_diffs_wrapping by (unfold i32_min, i32_max; lia).
    rewrite Z.add_0_l.
    by rewrite (zip_sum_index (fun l r => Z.abs (wrap32 (l - r)))). }
  split; [exact Hfit|split; [|split; [exact Hrel|]]].
  - intros Hbig. destruct (calculate_total_distance true left_list right_list)
      as [v|] eqn:E; [|done].
    destruct (Hchk v eq_refl). lia.
  - intros Hd. rewrite Hrel. do 2 f_equal. unfold paired_distance. f_equal.
    apply List.map_ext_in. intros i Hi. apply List.in_seq in Hi.
    rewrite wrap32_id; [done|]. apply Hd. lia.
Qed.

(** [[i32::MIN]] against [[i32::MAX]]: S = 2^32 - 1 exceeds [i32::MAX];
    with overflow checks the function panics, without them the difference
    wraps to 1 and the result is 1 (S wrapped would be -1). *)
Lemma total_distance_paired_sum_witness :
  Sorted (≤) [-2147483648] /\ Sorted (≤) [2147483647] /\
  calculate_total_distance true [-2147483648] [2147483647] = None /\
  calculate_total_distance false [-2147483648] [2147483647] = Some 1 /\
  wrap32 (paired_distance [-2147483648] [2147483647]) = -1.
Proof.
  assert (Hs1 : Sorted (≤) [-2147483648]) by repeat constructor.
  assert (Hs2 : Sorted (≤) [2147483647]) by repeat constructor.
  destruct (total_distance_paired_sum false [-2147483648] [2147483647]
              [-2147483648] [2147483647] Hs1 (reflexivity _) Hs2 (reflexivity _))
    as (_ & Hchk & Hrel & _).
  split; [done|split; [done|split; [|split]]].
  - apply Hchk. vm_compute. reflexivity.
  - rewrite Hrel. vm_compute. reflexivity.
  - vm_compute. reflexivity.
Defined.

(** Claim C3, counterexample: two differences of 2000000000 each; the
    paired sum is 4000000000, but the function panics with overflow checks
    and returns the wrapped value -294967296 without them. *)
Lemma total_distance_sum_overflow :
  paired_distance (sort_i32 [0; 0]) (sort_i32 [2000000000; 2000000000]) = 4000000000 /\
  calculate_total_distance true [0; 0] [2000000000; 2000000000] = None /\
  calculate_total_distance false [0; 0] [2000000000; 2000000000] = Some (-294967296).
Proof. vm_compute. repeat split. Qed.

(** Claim C4 (as it holds): with overflow checks, a returned score is the
    sum over the occurrences [v] of [left_list] of
    [v * occurrences v right_list]; without them the result is that sum
    wrapped to [i32]; when [left_list] is non-negative, [right_list] has at
    most [i32::MAX] elements and the sum fits in [i32], both profiles
    return it exactly.  The [if let Some(&count)] loop equals the loop with
    a default-0 lookup, and an empty [right_list] gives 0. *)
Theorem similarity_score_weighted_sum (oc : bool) (left_list right_list : list Z) :
  (forall v, calculate_similarity_score true left_list right_list = Some v ->
     v = similarity_sum left_list right_list) /\
  calculate_similarity_score false left_list right_list =
    Some (wrap32 (similarity_sum left_list right_list)) /\
  (Forall (fun v => 0 <= v) left_list ->
   Z.of_nat (length right_list) <= i32_max ->
   similarity_sum left_list right_list <= i32_max ->
   calculate_similarity_score oc left_list right_list =
     Some (similarity_sum left_list right_list)) /\
  (forall (right_counts : gmap Z Z) (s : Z), i32_min <= s <= i32_max ->
     score_loop oc right_counts s left_list =
     score_loop_default oc right_counts s left_list) /\
  calculate_similarity_score oc left_list [] = Some 0.
Proof.
  destruct (similarity_spec oc left_list right_list) as (Ha & Hb & Hc).
  split; [done|split; [done|split; [done|split]]].
  - intros m s Hs. by apply score_loop_default_eq.
  - apply score_loop_empty.
Qed.

Lemma similarity_score_weighted_sum_witness :
  calculate_similarity_score true [3; 4; 2; 1; 3; 3] [4; 3; 5; 3; 9; 3] =
    Some (similarity_sum [3; 4; 2; 1; 3; 3] [4; 3; 5; 3; 9; 3]) /\
  score_loop true ∅ 0 [3; 4] = score_loop_default true ∅ 0 [3; 4].
Proof.
  split.
  - destruct (similarity_score_weighted_sum true [3; 4; 2; 1; 3; 3] [4; 3; 5; 3; 9; 3])
      as (_ & _ & H & _ & _).
    apply H.
    + repeat constructor; vm_compute; discriminate.
    + simpl. unfold i32_max. lia.
    + vm_compute. discriminate.
  - destruct (similarity_score_weighted_sum true [3; 4] []) as (_ & _ & _ & H & _).
    apply H. unfold i32_min, i32_max. lia.
Defined.

(** Claim C4, counterexample: [2^30] occurring twice in [right_list]
    gives a score of [2^31], which overflows [i32]. *)
Lemma similarity_score_overflow :
  similarity_sum [1073741824] [1073741824; 1073741824] = 2147483648 /\
  calculate_similarity_score true [1073741824] [1073741824; 1073741824] = None /\
  calculate_similarity_score false [1073741824] [1073741824; 1073741824] =
    Some (-2147483648).
Proof. vm_compute. repeat split. Qed.

(** Claim C5: the sample input of the puzzle parses to
    [[3;4;2;1;3;3]] and [[4;3;5;3;9;3]]; the total distance is 11 and the
    similarity score 31, in both build profiles. *)
Theorem sample_input_results (oc : bool) :
  read_data_from_file
    (Ok [Ok "3   4"; Ok "4 3"; Ok "2 5"; Ok "1 3"; Ok "3 9"; Ok "3 3"]) =
    Some (Ok ([3; 4; 2; 1; 3; 3], [4; 3; 5; 3; 9; 3])) /\
  calculate_total_distance oc [3; 4; 2; 1; 3; 3] [4; 3; 5; 3; 9; 3] = Some 11 /\
  calculate_similarity_score oc [3; 4; 2; 1; 3; 3] [4; 3; 5; 3; 9; 3] = Some 31.
Proof. destruct oc; vm_compute; repeat split. Qed.

(** Claim C6: whenever [read_data_from_file] returns two lists, they have
    the same length. *)
Theorem read_data_from_file_same_length (f : file) (left_list right_list : list Z) :
  read_data_from_file f = Some (Ok (left_list, right_list)) ->
  length left_list = length right_list.
Proof.
  destruct f as [lines|e]; [|done].
  rewrite read_data_from_file_ok. intros [= <- <-]. by rewrite !length_map.
Qed.

Lemma read_data_from_file_same_length_witness :
  read_data_from_file (Ok [Ok "1 2"; Ok "x"; Ok "3 4 5"; Ok "6 7"]) =
    Some (Ok ([1; 6], [2; 7])) /\
  length [1; 6] = length [2; 7].
Proof.
  split; [reflexivity|].
  apply (read_data_from_file_same_length
           (Ok [Ok "1 2"; Ok "x"; Ok "3 4 5"; Ok "6 7"])).
  reflexivity.
Defined.

(** Claim C7: on lists of equal length, [calculate_total_distance] is
    symmetric in its arguments (in both build profiles, also when it
    overflows; the proof does not use the length hypothesis), and it
    returns 0 on two permutations of one list. *)
Theorem total_distance_symmetric (oc : bool) (left_list right_list : list Z) :
  length left_list = length right_list ->
  calculate_total_distance oc left_list right_list =
    calculate_total_distance oc right_list left_list /\
  (left_list ≡ₚ right_list -> calculate_total_distance oc left_list right_list = Some 0).
Proof.
  intros _. unfold calculate_total_distance. split.
  - apply sum_abs_diffs_swap.
  - intros Hp.
    rewrite (sort_i32_unique right_list (sort_i32 left_list));
      [|apply sort_i32_sorted|by rewrite sort_i32_perm].
    rewrite sum_abs_diffs_fits; rewrite ?abs_diffs_zip_self; [done|lia|unfold i32_max; lia].
Qed.

Lemma total_distance_symmetric_witness :
  length [5; 1; 9] = length [9; 5; 1] /\
  calculate_total_distance true [5; 1; 9] [9; 5; 1] =
    calculate_total_distance true [9; 5; 1] [5; 1; 9] /\
  calculate_total_distance true [5; 1; 9] [9; 5; 1] = Some 0.
Proof.
  destruct (total_distance_symmetric true [5; 1; 9] [9; 5; 1] eq_refl) as [Hs Hz].
  split; [reflexivity|split; [exact Hs|]].
  apply Hz. apply (bool_decide_unpack _). vm_compute. reflexivity.
Defined.

(** Claim C8 (as it holds): with overflow checks every value returned is
    non-negative (an overflowing sum panics); without them the result is
    non-negative whenever the sum of the sorted pairwise differences fits
    in [i32]. *)
Theorem total_distance_nonneg (oc : bool) (left_list right_list : list Z) :
  (forall v, calculate_total_distance true left_list right_list = Some v -> 0 <= v) /\
  (paired_distance (sort_i32 left_list) (sort_i32 right_list) <= i32_max ->
   exists v, calculate_total_distance oc left_list right_list = Some v /\ 0 <= v).
Proof.
  destruct (total_distance_spec oc left_list right_list) as [Hfit Hchk].
  split.
  - intros v Hv. destruct (Hchk v Hv) as [-> _].
    rewrite <- abs_diffs_zip. apply abs_diffs_nonneg.
  - intros H. exists (paired_distance (sort_i32 left_list) (sort_i32 right_list)).
    split; [by apply Hfit|]. rewrite <- abs_diffs_zip. apply abs_diffs_nonneg.
Qed.

Lemma total_distance_nonneg_witness :
  calculate_total_distance true [3; 4; 2; 1; 3; 3] [4; 3; 5; 3; 9; 3] = Some 11 /\
  0 <= 11.
Proof.
  split; [reflexivity|].
  destruct (total_distance_nonneg true [3; 4; 2; 1; 3; 3] [4; 3; 5; 3; 9; 3])
    as [H _].
  apply H. reflexivity.
Defined.

(** Claim C8, counterexample: without overflow checks,
    [abs(i32::MIN - 0)] wraps to [i32::MIN] and the total is negative. *)
Lemma total_distance_negative_wrapping :
  calculate_total_distance false [-2147483648] [0] = Some (-2147483648).
Proof. reflexivity. Qed.

(** Claim C9 (as it holds): permuting [left_list] and [right_list] does not
    change the result of a build without overflow checks, nor any value a
    build with overflow checks returns on both orders; such a build may
    panic on one order and return on another. *)
Theorem similarity_score_perm (left_list left_list' right_list right_list' : list Z) :
  left_list ≡ₚ left_list' -> right_list ≡ₚ right_list' ->
  calculate_similarity_score false left_list' right_list' =
    calculate_similarity_score false left_list right_list /\
  (forall v v',
     calculate_similarity_score true left_list right_list = Some v ->
     calculate_similarity_score true left_list' right_list' = Some v' -> v = v').
Proof.
  intros Hl Hr.
  destruct (similarity_spec false left_list right_list) as (H1 & H2 & _).
  destruct (similarity_spec false left_list' right_list') as (H1' & H2' & _).
  rewrite (similarity_sum_perm left_list left_list' right_list right_list') in H1, H2
    by done.
  split.
  - by rewrite H2, H2'.
  - intros v v' Hv Hv'. rewrite (H1 v Hv), (H1' v' Hv'). done.
Qed.

Lemma similarity_score_perm_witness :
  calculate_similarity_score false [1; 3; 3] [3; 2; 3] =
    calculate_similarity_score false [3; 1; 3] [2; 3; 3] /\
  calculate_similarity_score true [1; 3; 3] [3; 2; 3] = Some 12.
Proof.
  destruct (similarity_score_perm [3; 1; 3] [1; 3; 3] [2; 3; 3] [3; 2; 3])
    as [H _].
  - apply (bool_decide_unpack _). vm_compute. reflexivity.
  - apply (bool_decide_unpack _). vm_compute. reflexivity.
  - split; [exact H|reflexivity].
Defined.

(** Claim C9, counterexample: with overflow checks, the order
    [i32::MAX, 1, -1] of [left_list] overflows at [i32::MAX + 1] and
    panics, while the order [i32::MAX, -1, 1] returns [i32::MAX]. *)
Lemma similarity_score_order_panic :
  calculate_similarity_score true [2147483647; 1; -1] [2147483647; 1; -1] = None /\
  calculate_similarity_score true [2147483647; -1; 1] [2147483647; 1; -1] =
    Some 2147483647.
Proof. vm_compute. split; reflexivity. Qed.

(** Claim C10: no line content makes [read_data_from_file] panic: each
    loop iteration indexes [numbers[0]] and [numbers[1]] only when
    [numbers] has two elements; on a line stream that ends the function
    always returns, and it returns an error only when [File::open] failed
    with that error. *)
Theorem read_data_from_file_total :
  (forall (acc : list Z * list Z) (line : io_result string),
     exists acc', read_step acc line = Some acc') /\
  (forall f : file, exists res, read_data_from_file f = Some res /\
     match res with Err e => f = Err e | Ok _ => True end).
Proof.
  split.
  - intros [left_list right_list] line. rewrite read_step_spec. by eexists.
  - intros [lines|e].
    + rewrite read_data_from_file_ok. by eexists.
    + by exists (Err e).
Qed.

(* ------------------------------------------------------------------ *)
(** ** Further properties of the program *)

(** Evaluate the character codes of literal characters in the goal. *)
Ltac char_codes :=
  repeat lazymatch goal with
  | |- context [nat_of_ascii (Ascii ?b0 ?b1 ?b2 ?b3 ?b4 ?b5 ?b6 ?b7)] =>
      let c := constr:(Ascii b0 b1 b2 b3 b4 b5 b6 b7) in
      let v := eval vm_compute in (nat_of_ascii c) in
      change (nat_of_ascii c) with v
  end.

Lemma parse_digits_uint_acc (d : Decimal.uint) (p : positive) :
  parse_digits (list_ascii_of_string (NilEmpty.string_of_uint d)) (Z.pos p) =
  Some (Z.pos (Pos.of_uint_acc d p)).
Proof.
  revert p. induction d as [|d IH|d IH|d IH|d IH|d IH|d IH|d IH|d IH|d IH|d IH];
    intros p; [done| | | | | | | | | |]; simpl; char_codes; rewrite <- IH; f_equal; lia.
Qed.

Lemma parse_digits_uint (d : Decimal.uint) :
  parse_digits (list_ascii_of_string (NilEmpty.string_of_uint d)) 0 =
  Some (Z.of_N (Pos.of_uint d)).
Proof.
  induction d as [|d IH|d IH|d IH|d IH|d IH|d IH|d IH|d IH|d IH|d IH]; [done| | | | | | | | | |];
    cbn -[Z.mul Z.add Pos.of_uint_acc]; [exact IH|..];
    rewrite <- parse_digits_uint_acc; f_equal.
Qed.

Lemma parse_i32_unsigned (u : Decimal.uint) :
  u <> Decimal.Nil ->
  parse_i32 (list_ascii_of_string (NilEmpty.string_of_uint u)) =
  parse_digits (list_ascii_of_string (NilEmpty.string_of_uint u)) 0 ≫= range_check.
Proof. destruct u; [done|..]; reflexivity. Qed.

Lemma parse_i32_negative (u : Decimal.uint) :
  u <> Decimal.Nil ->
  parse_i32 ("-"%char :: list_ascii_of_string (NilEmpty.string_of_uint u)) =
  parse_digits (list_ascii_of_string (NilEmpty.string_of_uint u)) 0
    ≫= fun v => range_check (- v).
Proof. destruct u; [done|..]; reflexivity. Qed.

Lemma range_check_in (z : Z) : i32_min <= z <= i32_max -> range_check z = Some z.
Proof.
  intros Hz. unfold range_check.
  by replace (in_i32 z) with true by (symmetry; by apply in_i32_iff).
Qed.

Lemma list_ascii_of_string_append (s1 s2 : string) :
  list_ascii_of_string (String.append s1 s2) =
  list_ascii_of_string s1 ++ list_ascii_of_string s2.
Proof. induction s1 as [|c s1 IH]; simpl; [done|by rewrite IH]. Qed.

Ltac byte_facts :=
  unfold is_word_byte, is_whitespace_ascii, is_whitespace2, is_whitespace3,
    is_continuation in *; cbv zeta in *;
  repeat rewrite ?andb_true_iff, ?orb_true_iff, ?andb_false_iff, ?orb_false_iff,
    ?negb_true_iff, ?negb_false_iff, ?Nat.eqb_eq, ?Nat.leb_le, ?Nat.ltb_lt,
    ?Nat.eqb_neq, ?Nat.leb_gt, ?Nat.ltb_ge in *;
  first [lia | exfalso; lia].

Lemma whitespace2_cont (c0 c1 : ascii) :
  is_whitespace2 c0 c1 = true -> is_continuation c1 = true.
Proof. intros H. byte_facts. Qed.

Lemma whitespace3_cont (c0 c1 c2 : ascii) :
  is_whitespace3 c0 c1 c2 = true ->
  is_continuation c1 = true /\ is_continuation c2 = true.
Proof. intros H. split; byte_facts. Qed.

(** A whitespace character never starts with a continuation byte. *)
Lemma whitespace_rest_head (c0 : ascii) (s r : list ascii) :
  whitespace_rest (c0 :: s) = Some r -> is_continuation c0 = false.
Proof.
  simpl. destruct (is_whitespace_ascii c0) eqn:E0; [intros _; byte_facts|].
  destruct s as [|c1 [|c2 s3]]; [done| |].
  - destruct (is_whitespace2 c0 c1) eqn:E2; [intros _; byte_facts|done].
  - destruct (is_whitespace2 c0 c1) eqn:E2; [intros _; byte_facts|].
    destruct (is_whitespace3 c0 c1 c2) eqn:E3; [intros _; byte_facts|done].
Qed.

Lemma whitespace_rest_starts_char (s r t : list ascii) :
  whitespace_rest s = Some r -> starts_char (s ++ t) = true.
Proof.
  destruct s as [|c0 s]; [done|]. intros H. simpl.
  by rewrite (whitespace_rest_head c0 s r H).
Qed.

Lemma whitespace_rest_extend (s r t : list ascii) :
  whitespace_rest s = Some r -> whitespace_rest (s ++ t) = Some (r ++ t).
Proof.
  destruct s as [|c0 [|c1 [|c2 s3]]]; simpl; [done| | |];
    destruct (is_whitespace_ascii c0); [by intros [= <-]| |by intros [= <-]|
      |by intros [= <-]|]; [done| |];
    destruct (is_whitespace2 c0 c1); try (by intros [= <-]); try done.
  destruct (is_whitespace3 c0 c1 c2); [by intros [= <-]|done].
Qed.

(** Bytes that start a character cannot complete a whitespace character
    begun before them. *)
Lemma whitespace_rest_app (c : ascii) (s t : list ascii) :
  starts_char t = true ->
  whitespace_rest (c :: s ++ t) = (fun r => r ++ t) <$> whitespace_rest (c :: s).
Proof.
  intros Ht.
  destruct (whitespace_rest (c :: s)) as [r|] eqn:E.
  { simpl. by apply (whitespace_rest_extend (c :: s)). }
  simpl. simpl in E. destruct (is_whitespace_ascii c); [done|].
  assert (Hc : forall x t', t = x :: t' -> is_continuation x = false).
  { intros x t' ->. simpl in Ht. by apply negb_true_iff. }
  destruct s as [|c1 [|c2 s3]]; simpl.
  - destruct t as [|x t']; [done|].
    destruct (is_whitespace2 c x) eqn:E2.
    { apply whitespace2_cont in E2. by rewrite (Hc x t') in E2. }
    destruct t' as [|y t'']; [done|].
    destruct (is_whitespace3 c x y) eqn:E3; [|done].
    apply whitespace3_cont in E3 as [E3 _]. by rewrite (Hc x (y :: t'')) in E3.
  - destruct (is_whitespace2 c c1); [done|].
    destruct t as [|x t']; [done|].
    destruct (is_whitespace3 c c1 x) eqn:E3; [|done].
    apply whitespace3_cont in E3 as [_ E3]. by rewrite (Hc x t') in E3.
  - destruct (is_whitespace2 c c1); [done|].
    by destruct (is_whitespace3 c c1 c2).
Qed.

Lemma whitespace_rest_shorter (s r : list ascii) :
  whitespace_rest s = Some r -> (length r < length s)%nat.
Proof.
  destruct s as [|c0 [|c1 [|c2 s3]]]; simpl; [done| | |];
    destruct (is_whitespace_ascii c0); try (intros [= <-]; simpl; lia); try done;
    destruct (is_whitespace2 c0 c1); try (intros [= <-]; simpl; lia); try done.
  destruct (is_whitespace3 c0 c1 c2); [intros [= <-]; simpl; lia|done].
Qed.

Lemma split_ws_aux_ws (s r cur : list ascii) :
  whitespace_rest s = Some r -> split_ws_aux s cur = flush cur (split_ws_aux r []).
Proof.
  destruct s as [|c0 [|c1 [|c2 s3]]]; simpl; [done| | |];
    destruct (is_whitespace_ascii c0); try (by intros [= <-]); try done;
    destruct (is_whitespace2 c0 c1); try (by intros [= <-]); try done.
  destruct (is_whitespace3 c0 c1 c2); [by intros [= <-]|done].
Qed.

Lemma split_ws_aux_byte (c : ascii) (s cur : list ascii) :
  whitespace_rest (c :: s) = None -> split_ws_aux (c :: s) cur = split_ws_aux s (c :: cur).
Proof.
  destruct s as [|c1 [|c2 s3]]; simpl;
    destruct (is_whitespace_ascii c); try done;
    destruct (is_whitespace2 c c1); try done.
  by destruct (is_whitespace3 c c1 c2).
Qed.

Lemma flush_app (cur : list ascii) (a b : list (list ascii)) :
  flush cur (a ++ b) = flush cur a ++ b.
Proof. by destruct cur. Qed.

(** Splitting at a whitespace character [w] splits the tokens there. *)
Lemma split_ws_aux_sep (s1 w s2 cur : list ascii) :
  whitespace_rest w = Some [] ->
  split_ws_aux (s1 ++ w ++ s2) cur = split_ws_aux s1 cur ++ split_ws_aux s2 [].
Proof.
  intros Hw. remember (length s1) as n eqn:Hn. revert s1 cur Hn.
  induction n as [n IH] using lt_wf_ind. intros s1 cur ->.
  destruct s1 as [|x s1].
  - simpl. rewrite (split_ws_aux_ws _ s2) by apply (whitespace_rest_extend _ _ _ Hw).
    by rewrite <- flush_app.
  - rewrite <- app_comm_cons.
    destruct (whitespace_rest (x :: s1)) as [r|] eqn:E.
    + rewrite (split_ws_aux_ws (x :: s1) r) by done.
      rewrite (split_ws_aux_ws _ (r ++ w ++ s2)).
      2:{ rewrite whitespace_rest_app, E; [done|].
          by apply (whitespace_rest_starts_char _ [] s2). }
      rewrite (IH (length r)); [by rewrite flush_app| |done].
      apply whitespace_rest_shorter in E. simpl in E |- *. lia.
    + rewrite !split_ws_aux_byte by (try rewrite whitespace_rest_app, E; try done;
        by apply (whitespace_rest_starts_char _ [] s2)).
      apply (IH (length s1)); [simpl; lia|done].
Qed.

Lemma split_ws_aux_word (s cur : list ascii) :
  s <> [] -> Forall (fun c => is_word_byte c = true) s ->
  split_ws_aux s cur = [rev cur ++ s].
Proof.
  intros Hs Hw. revert cur. induction Hw as [|x s Hx Hw IH]; intros cur; [done|].
  rewrite split_ws_aux_byte.
  2:{ simpl. destruct (is_whitespace_ascii x) eqn:E0; [byte_facts|].
      destruct s as [|c1 [|c2 s3]]; [done| |].
      - destruct (is_whitespace2 x c1) eqn:E2; [byte_facts|done].
      - destruct (is_whitespace2 x c1) eqn:E2; [byte_facts|].
        destruct (is_whitespace3 x c1 c2) eqn:E3; [byte_facts|done]. }
  destruct s as [|y s].
  - done.
  - rewrite IH by done. simpl. by rewrite <- app_assoc.
Qed.

(** The token being built, followed by the rest of the input, has no
    whitespace character starting inside the token. *)
Definition token_inv (cur s : list ascii) : Prop :=
  forall k, (k < length cur)%nat -> whitespace_rest (drop k (rev cur) ++ s) = None.

Lemma token_inv_token (cur s : list ascii) :
  token_inv cur s -> forall k, whitespace_rest (drop k (rev cur)) = None.
Proof.
  intros Hinv k. destruct (decide (k < length cur)%nat) as [Hk|Hk].
  - destruct (whitespace_rest (drop k (rev cur))) as [r|] eqn:E; [|done].
    apply (whitespace_rest_extend _ _ s) in E. by rewrite Hinv in E.
  - rewrite drop_ge; [done|]. rewrite length_rev. lia.
Qed.

Lemma flush_tokens (cur s : list ascii) (ts : list (list ascii)) :
  token_inv cur s ->
  Forall (fun t => t <> [] /\ forall k, whitespace_rest (drop k t) = None) ts ->
  Forall (fun t => t <> [] /\ forall k, whitespace_rest (drop k t) = None) (flush cur ts).
Proof.
  intros Hinv Hts. destruct cur as [|c cur]; [done|].
  constructor; [|done]. split.
  - intros Hr. apply (f_equal length) in Hr. rewrite length_rev in Hr. done.
  - by apply (token_inv_token _ s).
Qed.

Lemma split_ws_aux_tokens (s cur : list ascii) :
  token_inv cur s ->
  Forall (fun t => t <> [] /\ forall k, whitespace_rest (drop k t) = None)
         (split_ws_aux s cur).
Proof.
  remember (length s) as n eqn:Hn. revert s cur Hn.
  induction n as [n IH] using lt_wf_ind. intros s cur -> Hinv.
  destruct s as [|c s].
  - simpl. by apply (flush_tokens _ []).
  - destruct (whitespace_rest (c :: s)) as [r|] eqn:E.
    + rewrite (split_ws_aux_ws _ r) by done.
      apply (flush_tokens _ (c :: s)); [done|].
      apply (IH (length r)); [by apply whitespace_rest_shorter in E|done|].
      intros k Hk. simpl in Hk. lia.
    + rewrite split_ws_aux_byte by done.
      apply (IH (length s)); [simpl; lia|done|].
      intros k Hk. simpl in Hk. simpl.
      destruct (decide (k < length cur)%nat) as [Hlt|Hge].
      * rewrite drop_app_le by (rewrite length_rev; lia).
        rewrite <- app_assoc. by apply Hinv.
      * replace k with (length (rev cur)) by (rewrite length_rev; lia).
        by rewrite drop_app_length.
Qed.

Lemma uint_string_word (u : Decimal.uint) :
  Forall (fun c => is_word_byte c = true)
         (list_ascii_of_string (NilEmpty.string_of_uint u)).
Proof. induction u; simpl; by constructor. Qed.

Lemma fmt_i32_word (z : Z) :
  list_ascii_of_string (fmt_i32 z) <> [] /\
  Forall (fun c => is_word_byte c = true) (list_ascii_of_string (fmt_i32 z)).
Proof.
  unfold fmt_i32. destruct z as [|p|p]; simpl.
  - split; [done|]. repeat constructor.
  - pose proof (DecimalPos.Unsigned.to_uint_nonnil p).
    split; [by destruct (Pos.to_uint p)|apply uint_string_word].
  - split; [done|]. constructor; [done|apply uint_string_word].
Qed.

Lemma parse_i32_fmt (z : Z) :
  i32_min <= z <= i32_max ->
  parse_i32 (list_ascii_of_string (fmt_i32 z)) = Some z.
Proof.
  intros Hz. unfold fmt_i32. destruct z as [|p|p]; [reflexivity| |].
  - simpl. rewrite parse_i32_unsigned by apply DecimalPos.Unsigned.to_uint_nonnil.
    rewrite parse_digits_uint, DecimalPos.Unsigned.of_to. simpl.
    by apply range_check_in.
  - cbn [Z.to_int NilEmpty.string_of_int list_ascii_of_string].
    rewrite parse_i32_negative by apply DecimalPos.Unsigned.to_uint_nonnil.
    rewrite parse_digits_uint, DecimalPos.Unsigned.of_to. simpl.
    by apply range_check_in.
Qed.

Lemma parse_line_formatted_pair (a b : Z) :
  i32_min <= a <= i32_max -> i32_min <= b <= i32_max ->
  parse_line (String.append (fmt_i32 a) (String.append " " (fmt_i32 b))) = [a; b].
Proof.
  intros Ha Hb. unfold parse_line, split_whitespace.
  rewrite !list_ascii_of_string_append.
  rewrite split_ws_aux_sep by reflexivity.
  destruct (fmt_i32_word a) as [Ha1 Ha2], (fmt_i32_word b) as [Hb1 Hb2].
  rewrite !split_ws_aux_word by done. simpl.
  by rewrite !parse_i32_fmt.
Qed.

Lemma accepted_pairs_app (lines1 lines2 : list (io_result string)) :
  accepted_pairs (lines1 ++ lines2) = accepted_pairs lines1 ++ accepted_pairs lines2.
Proof.
  induction lines1 as [|line lines1 IH]; [done|].
  rewrite <- app_comm_cons, accepted_pairs_cons, IH, app_assoc.
  by rewrite <- accepted_pairs_cons.
Qed.

Lemma count_into_dom (oc : bool) (m m' : gmap Z Z) (nums : list Z) :
  count_into oc m nums = Some m' ->
  forall v, is_Some (m' !! v) <-> is_Some (m !! v) \/ v ∈ nums.
Proof.
  revert m. induction nums as [|num nums IH]; intros m Hrun v.
  - injection Hrun as <-. set_solver.
  - cbn [count_into] in Hrun.
    destruct (i32_add oc (default 0 (m !! num)) 1) as [c|]; [|done].
    simpl in Hrun. rewrite (IH _ Hrun v), lookup_insert_is_Some', elem_of_cons.
    naive_solver.
Qed.

Lemma count_into_some_occ (m : gmap Z Z) (nums : list Z) :
  (forall v, 0 <= default 0 (m !! v) /\
             default 0 (m !! v) + occurrences v nums <= i32_max) ->
  exists m', count_into true m nums = Some m'.
Proof.
  revert m. induction nums as [|num nums IH]; intros m Hm; [by eexists|].
  cbn [count_into]. destruct (Hm num) as [H0 H1].
  rewrite occurrences_cons, decide_True in H1 by done.
  pose proof (occurrences_nonneg num nums).
  unfold i32_add. rewrite i32_result_in by (unfold i32_min, i32_max in *; lia). simpl.
  apply IH. intros v. destruct (decide (num = v)) as [<-|Hne].
  - rewrite lookup_insert_eq. simpl. lia.
  - rewrite lookup_insert_ne by done. destruct (Hm v) as [A B].
    rewrite occurrences_cons, decide_False in B by done. lia.
Qed.

(** Every count stored in the map is an [i32] value. *)
Lemma count_into_values_range (oc : bool) (m m' : gmap Z Z) (nums : list Z) :
  count_into oc m nums = Some m' ->
  (forall v x, m !! v = Some x -> i32_min <= x <= i32_max) ->
  forall v x, m' !! v = Some x -> i32_min <= x <= i32_max.
Proof.
  revert m. induction nums as [|num nums IH]; intros m Hrun Hm.
  - by injection Hrun as <-.
  - cbn [count_into] in Hrun.
    destruct (i32_add oc (default 0 (m !! num)) 1) as [c|] eqn:Hc; [|done].
    simpl in Hrun. apply (IH _ Hrun). intros v x.
    destruct (decide (num = v)) as [<-|Hne].
    + rewrite lookup_insert_eq. intros [= <-]. by apply i32_result_range in Hc.
    + rewrite lookup_insert_ne by done. apply Hm.
Qed.

Lemma occurrences_absent (v : Z) (r : list Z) : v ∉ r -> occurrences v r = 0.
Proof.
  induction r as [|x r IH]; intros Hv; [done|].
  rewrite occurrences_cons, decide_False by set_solver. rewrite IH by set_solver. done.
Qed.

Lemma score_loop_present (oc : bool) (m : gmap Z Z) (s : Z) (nums : list Z) :
  score_loop oc m s nums = score_loop oc m s (filter (fun v => is_Some (m !! v)) nums).
Proof.
  revert s. induction nums as [|num nums IH]; intros s; [done|].
  cbn [score_loop]. destruct (m !! num) as [count|] eqn:E.
  - rewrite filter_cons_True by (rewrite E; by eexists). cbn [score_loop].
    rewrite E. destruct (i32_mul oc num count); simpl; [|done].
    destruct (i32_add oc s z); simpl; [apply IH|done].
  - rewrite filter_cons_False by (rewrite E; apply is_Some_None). apply IH.
Qed.


Lemma similarity_sum_nonneg (left_list right_list : list Z) :
  Forall (fun v => 0 <= v) left_list -> 0 <= similarity_sum left_list right_list.
Proof.
  unfold similarity_sum. induction 1 as [|x l Hx Hl IH]; simpl; [lia|].
  pose proof (occurrences_nonneg x right_list). nia.
Qed.

(* ------------------------------------------------------------------ *)
(** ** Further properties: parsing and formatting *)

(** [println!("{}", v)] of an [i32] followed by [str::parse::<i32>] gives
    back [v]. *)
Theorem parse_i32_display_roundtrip (z : Z) :
  i32_min <= z <= i32_max ->
  parse_i32 (list_ascii_of_string (fmt_i32 z)) = Some z.
Proof. apply parse_i32_fmt. Qed.

Lemma parse_i32_display_roundtrip_witness :
  parse_i32 (list_ascii_of_string (fmt_i32 (-2147483648))) = Some (-2147483648).
Proof.
  apply parse_i32_display_roundtrip. unfold i32_min, i32_max. lia.
Defined.

(** A file whose lines are two [i32] values printed in decimal and
    separated by a space is read back as the two columns. *)
Theorem read_formatted_pairs (pairs : list (Z * Z)) :
  Forall (fun p => i32_min <= p.1 <= i32_max /\ i32_min <= p.2 <= i32_max) pairs ->
  read_data_from_file
    (Ok (map (fun p => Ok (String.append (fmt_i32 p.1)
                             (String.append " " (fmt_i32 p.2)))) pairs)) =
  Some (Ok (map fst pairs, map snd pairs)).
Proof.
  intros Hp. rewrite read_data_from_file_ok. do 3 f_equal;
  (induction Hp as [|[a b] pairs [Ha Hb] Hp IH]; [done|]);
  simpl; rewrite parse_line_formatted_pair by done; simpl; by rewrite IH.
Qed.

Lemma read_formatted_pairs_witness :
  read_data_from_file
    (Ok (map (fun p => Ok (String.append (fmt_i32 p.1)
                             (String.append " " (fmt_i32 p.2))))
             [(-5, 12); (2147483647, 0)])) =
  Some (Ok ([-5; 2147483647], [12; 0])).
Proof.
  apply (read_formatted_pairs [(-5, 12); (2147483647, 0)]).
  repeat constructor; unfold i32_min, i32_max; simpl; lia.
Defined.

(** Reading is line by line: the result on two streams one after the
    other is the concatenation of the two results. *)
Theorem read_data_append (lines1 lines2 : list (io_result string))
    (l1 r1 l2 r2 : list Z) :
  read_data_from_file (Ok lines1) = Some (Ok (l1, r1)) ->
  read_data_from_file (Ok lines2) = Some (Ok (l2, r2)) ->
  read_data_from_file (Ok (lines1 ++ lines2)) = Some (Ok (l1 ++ l2, r1 ++ r2)).
Proof.
  rewrite !read_data_from_file_ok. intros [= <- <-] [= <- <-].
  by rewrite accepted_pairs_app, !map_app.
Qed.

Lemma read_data_append_witness :
  read_data_from_file (Ok ([Ok "1 2"] ++ [Ok "x"; Ok "3 4"])) =
  Some (Ok ([1] ++ [3], [2] ++ [4])).
Proof. apply read_data_append; reflexivity. Defined.

(** The line loop returns exactly when the [lines()] iterator ends after
    finitely many items, with a single result, and otherwise runs
    forever. *)
Theorem read_loop_terminates (it : lines_iter) :
  (lines_finite it <-> exists r, read_loop ([], []) it r) /\
  ((~ exists r, read_loop ([], []) it r) <-> read_loop_diverges ([], []) it) /\
  (forall r r', read_loop ([], []) it r -> read_loop ([], []) it r' -> r = r').
Proof.
  split; [split|split; [split|]].
  - apply read_loop_returns.
  - intros [r Hr]. by apply read_loop_finite in Hr.
  - apply read_loop_no_return_diverges.
  - intros Hd [r Hr]. exact (read_loop_not_both _ _ _ Hd Hr).
  - apply read_loop_deterministic.
Qed.

(** [split_whitespace] yields non-empty tokens in which no whitespace
    character starts at any byte. *)
Theorem split_whitespace_tokens (s : string) :
  Forall (fun t => t <> [] /\ forall k, whitespace_rest (drop k t) = None)
         (split_whitespace s).
Proof. apply split_ws_aux_tokens. intros k Hk. simpl in Hk. lia. Qed.

(** Splitting a line at a whitespace character [w] (one of the one-, two-
    or three-byte encodings) splits its tokens there. *)
Theorem split_whitespace_at_space (s1 w s2 : string) :
  whitespace_rest (list_ascii_of_string w) = Some [] ->
  split_whitespace (String.append s1 (String.append w s2)) =
  split_whitespace s1 ++ split_whitespace s2.
Proof.
  intros Hw. unfold split_whitespace.
  rewrite !list_ascii_of_string_append. by apply split_ws_aux_sep.
Qed.

(** U+00A0 (no-break space, bytes C2 A0) separates "1" from "2". *)
Lemma split_whitespace_at_space_witness :
  whitespace_rest (list_ascii_of_string (String "194"%char (String "160"%char EmptyString))) = Some [] /\
  split_whitespace (String.append "1" (String.append (String "194"%char (String "160"%char EmptyString)) "2")) =
  split_whitespace "1" ++ split_whitespace "2".
Proof.
  assert (Hw : whitespace_rest (list_ascii_of_string
                 (String "194"%char (String "160"%char EmptyString))) = Some [])
    by reflexivity.
  split; [exact Hw|]. by apply split_whitespace_at_space.
Defined.

(* ------------------------------------------------------------------ *)
(** ** Further properties: the two calculations *)

(** The total distance does not depend on the order of either list. *)
Theorem total_distance_reorder (oc : bool) (left_list left_list' right_list right_list' : list Z) :
  left_list ≡ₚ left_list' -> right_list ≡ₚ right_list' ->
  calculate_total_distance oc left_list' right_list' =
  calculate_total_distance oc left_list right_list.
Proof.
  intros Hl Hr. unfold calculate_total_distance.
  rewrite (sort_i32_unique left_list' (sort_i32 left_list)),
          (sort_i32_unique right_list' (sort_i32 right_list));
    try apply sort_i32_sorted; rewrite ?sort_i32_perm; done.
Qed.

Lemma total_distance_reorder_witness :
  calculate_total_distance true [4; 3; 1; 2; 3; 3] [3; 9; 3; 5; 3; 4] =
  calculate_total_distance true [3; 4; 2; 1; 3; 3] [4; 3; 5; 3; 9; 3].
Proof.
  apply total_distance_reorder; apply (bool_decide_unpack _); vm_compute; reflexivity.
Defined.

(** With one list empty nothing is paired and the distance is 0. *)
Theorem total_distance_empty (oc : bool) (v : list Z) :
  calculate_total_distance oc [] v = Some 0 /\
  calculate_total_distance oc v [] = Some 0.
Proof.
  unfold calculate_total_distance. split; [done|].
  by destruct (sort_i32 v).
Qed.

(** Values of [left_list] absent from [right_list] play no part: the score
    is that of the values present in [right_list] only. *)
Theorem similarity_absent_ignored (oc : bool) (left_list right_list : list Z) :
  calculate_similarity_score oc left_list right_list =
  calculate_similarity_score oc (filter (fun v => v ∈ right_list) left_list) right_list.
Proof.
  unfold calculate_similarity_score.
  destruct (count_into oc ∅ right_list) as [m|] eqn:Hm; [|done]. simpl.
  rewrite (score_loop_present oc m 0 left_list),
          (score_loop_present oc m 0 (filter _ left_list)).
  f_equal. rewrite list_filter_filter. apply list_filter_iff. intros v.
  rewrite (count_into_dom _ _ _ _ Hm v), lookup_empty.
  assert (~ is_Some (@None Z)) by (intros [? ?]; done). tauto.
Qed.

(** After the counting loop, [right_counts] has exactly the values of
    [right_list] as keys, each mapped to its number of occurrences; a
    build without overflow checks stores it wrapped to [i32].  With
    overflow checks the loop completes exactly when no value occurs more
    than [i32::MAX] times (it panics otherwise); without them it always
    completes. *)
Theorem similarity_counts_table (oc : bool) (right_list : list Z) :
  (forall right_counts, count_into oc ∅ right_list = Some right_counts ->
     forall v, right_counts !! v =
       if decide (v ∈ right_list)
       then Some (if oc then occurrences v right_list
                  else wrap32 (occurrences v right_list))
       else None) /\
  ((exists right_counts, count_into true ∅ right_list = Some right_counts) <->
   (forall v, occurrences v right_list <= i32_max)) /\
  (exists right_counts, count_into false ∅ right_list = Some right_counts).
Proof.
  assert (Htab : forall oc' m, count_into oc' ∅ right_list = Some m ->
     forall v, m !! v =
       if decide (v ∈ right_list)
       then Some (if oc' then occurrences v right_list
                  else wrap32 (occurrences v right_list))
       else None).
  { intros oc' m Hm v.
    destruct (count_into_spec _ _ _ _ Hm v) as [Hw Hc].
    rewrite lookup_empty in Hw, Hc. simpl in Hw, Hc.
    pose proof (count_into_dom _ _ _ _ Hm v) as Hd. rewrite lookup_empty in Hd.
    case_decide as Hv.
    - destruct (m !! v) as [c|] eqn:E.
      + simpl in Hw, Hc. destruct oc'; [by rewrite Hc|].
        rewrite wrap32_id in Hw; [by rewrite Hw|].
        refine (count_into_values_range _ _ _ _ Hm _ v c E).
        intros ? ?. by rewrite lookup_empty.
      + exfalso. assert (Hs : is_Some (@None Z)) by (apply Hd; by right).
        by destruct Hs.
    - destruct (m !! v) as [c|] eqn:E; [|done].
      exfalso. assert (is_Some (Some c)) as Hs by by eexists.
      apply Hd in Hs as [[? Hx]|Hx]; [done|auto]. }
  split; [apply Htab|split; [split|apply count_into_wrapping_some]].
  - intros [m Hm] v. destruct (decide (v ∈ right_list)) as [Hv|Hv].
    + pose proof (Htab true m Hm v) as E. rewrite decide_True in E by done.
      apply (count_into_values_range _ _ _ _ Hm) in E; [lia|].
      intros ? ?. by rewrite lookup_empty.
    + rewrite occurrences_absent by done. unfold i32_max. lia.
  - intros Hocc. apply count_into_some_occ. intros v. rewrite lookup_empty. simpl.
    pose proof (occurrences_nonneg v right_list). specialize (Hocc v). lia.
Qed.

Lemma similarity_counts_table_witness :
  count_into false ∅ [4; 3; 5; 3; 9; 3] =
    Some (<[9:=1]> (<[5:=1]> (<[3:=3]> (<[4:=1]> ∅)))) /\
  (<[9:=1]> (<[5:=1]> (<[3:=3]> (<[4:=1]> ∅))) : gmap Z Z) !! 3 = Some 3 /\
  (<[9:=1]> (<[5:=1]> (<[3:=3]> (<[4:=1]> ∅))) : gmap Z Z) !! 7 = None.
Proof.
  assert (H : count_into false ∅ [4; 3; 5; 3; 9; 3] =
              Some (<[9:=1]> (<[5:=1]> (<[3:=3]> (<[4:=1]> ∅))))) by reflexivity.
  destruct (similarity_counts_table false [4; 3; 5; 3; 9; 3]) as [Ht _].
  split; [exact H|]. rewrite (Ht _ H 3), (Ht _ H 7).
  split; vm_compute; reflexivity.
Defined.

(** With non-negative values in [left_list], a build with overflow checks
    never returns a negative score. *)
Theorem similarity_nonneg (left_list right_list : list Z) (v : Z) :
  Forall (fun x => 0 <= x) left_list ->
  calculate_similarity_score true left_list right_list = Some v -> 0 <= v.
Proof.
  intros Hl Hv. destruct (similarity_spec true left_list right_list) as [Hc _].
  rewrite (Hc v Hv). by apply similarity_sum_nonneg.
Qed.

Lemma similarity_nonneg_witness :
  0 <= 31.
Proof.
  apply (similarity_nonneg [3; 4; 2; 1; 3; 3] [4; 3; 5; 3; 9; 3]).
  - repeat constructor; vm_compute; discriminate.
  - reflexivity.
Defined.

(* ------------------------------------------------------------------ *)
(** ** Further properties: [main] *)

(** If the first open of the file fails, [main] prints nothing, never
    runs [part2], and exits with status 1 carrying that error. *)
Theorem main_open_error (oc : bool) (e : io_error) (f2 : file) :
  main oc (Err e) f2 = mk_outcome [] (Some (Err e)) /\
  exit_code (main oc (Err e) f2) = 1.
Proof. done. Qed.



(** If [part1] succeeds but the second open fails, the distance line is
    still printed and [main] exits with status 1 carrying that error. *)
Theorem main_second_open_error (oc : bool) (f1 : file) (e : io_error) :
  status (part1 oc f1) = Some (Ok tt) ->
  main oc f1 (Err e) = mk_outcome (stdout (part1 oc f1)) (Some (Err e)) /\
  exit_code (main oc f1 (Err e)) = 1.
Proof.
  intros H. unfold main. rewrite H. simpl. by rewrite app_nil_r.
Qed.

Lemma main_second_open_error_witness :
  main true (Ok [Ok "1 5"]) (Err NotFound) =
    mk_outcome (stdout (part1 true (Ok [Ok "1 5"]))) (Some (Err NotFound)) /\
  exit_code (main true (Ok [Ok "1 5"]) (Err NotFound)) = 1.
Proof. apply main_second_open_error. reflexivity. Defined.

